(** * Quantization helpers of the CMSIS-NN test utilities

    Shallow embedding of [tests/python/contrib/test_cmsisnn/utils.py]:
    [get_range_for_dtype_str], [get_same_padding], [get_conv2d_qnn_params],
    [make_qnn_relu] and the two partitioning checks.

    Modelling conventions.
    - Python [int] is [Z].
    - A Python [float] or [np.float64] is a binary64 value ([npfloat]): a
      finite rational, an infinity with its sign, or NaN.  Every arithmetic
      operation rounds its exact result to binary64 ([round64]: 53 bits,
      nearest, ties to even, gradual underflow, overflow to infinity).
      There is one zero, read as [+0.0].
    - A raised exception is the [Raise] branch of [result]. *)

From Stdlib Require Import ZArith QArith Qround Qabs Qpower Lqa Lia List String Bool.
From Stdlib Require Qcanon.
Import ListNotations.

Open Scope Z_scope.

(** ** Exceptions and the error monad *)

Inductive exn : Type :=
| ValueError
| TypeError
| ZeroDivisionError
| OverflowError
| IndexError.

Inductive result (A : Type) : Type :=
| Ok (a : A)
| Raise (e : exn).

Arguments Ok {A} a.
Arguments Raise {A} e.

Definition bind {A B : Type} (m : result A) (k : A -> result B) : result B :=
  match m with
  | Ok a => k a
  | Raise e => Raise e
  end.

Notation "x <- m ;; k" := (bind m (fun x => k))
  (at level 61, m at next level, right associativity).
Notation "' p <- m ;; k" := (bind m (fun x => match x with p => k end))
  (at level 61, p pattern, m at next level, right associativity).

(** [l[i]] for a constant, non-negative index. *)
Definition py_index (l : list Z) (i : nat) : result Z :=
  match nth_error l i with
  | Some x => Ok x
  | None => Raise IndexError
  end.

(** ** numpy's dtype table, [np.iinfo] and [np.finfo] *)

Module Numpy.

Inductive kind : Type :=
| SignedInt (bits : Z)
| UnsignedInt (bits : Z)
| Floating (bits : Z)
| Complex (bits : Z)
| Boolean
| Object.

(** The dtype names of the table: the sized names and their one-letter
    codes, the C names of the floating kinds, [bool] and [object].  Any
    other string is taken as a name numpy does not understand; numpy's
    platform-dependent names ([int], [long], ...) are not tabulated. *)
Definition names : list (string * kind) :=
  [ ("int8", SignedInt 8); ("int16", SignedInt 16); ("int32", SignedInt 32);
    ("int64", SignedInt 64);
    ("uint8", UnsignedInt 8); ("uint16", UnsignedInt 16);
    ("uint32", UnsignedInt 32); ("uint64", UnsignedInt 64);
    ("float16", Floating 16); ("float32", Floating 32);
    ("float64", Floating 64);
    ("bool", Boolean);
    ("i1", SignedInt 8); ("i2", SignedInt 16); ("i4", SignedInt 32);
    ("i8", SignedInt 64);
    ("u1", UnsignedInt 8); ("u2", UnsignedInt 16); ("u4", UnsignedInt 32);
    ("u8", UnsignedInt 64);
    ("f2", Floating 16); ("f4", Floating 32); ("f8", Floating 64);
    ("half", Floating 16); ("single", Floating 32); ("double", Floating 64);
    ("float", Floating 64);
    ("complex64", Complex 64); ("complex128", Complex 128);
    ("c8", Complex 64); ("c16", Complex 128);
    ("object", Object) ]%string.

Fixpoint lookup (name : string) (table : list (string * kind)) : option kind :=
  match table with
  | [] => None
  | (n, k) :: rest => if String.eqb name n then Some k else lookup name rest
  end.

Definition dtype (name : string) : option kind := lookup name names.

(** [np.iinfo(name)] as the pair [(min, max)]: numpy computes
    [-(1 << (bits-1))] and [(1 << (bits-1)) - 1] for a signed kind, [0] and
    [(1 << bits) - 1] for an unsigned one, raises [ValueError] for a kind
    that is not an integer and [TypeError] for an unknown name. *)
Definition iinfo (name : string) : result (Z * Z) :=
  match dtype name with
  | None => Raise TypeError
  | Some (SignedInt bits) =>
      Ok (- Z.shiftl 1 (bits - 1), Z.shiftl 1 (bits - 1) - 1)
  | Some (UnsignedInt bits) => Ok (0, Z.shiftl 1 bits - 1)
  | Some _ => Raise ValueError
  end.

(** Largest finite value of an IEEE binary format with [mant] explicit
    significand bits and maximal exponent [emax]: an integer for the three
    formats of the table. *)
Definition float_max (mant emax : Z) : Z :=
  (2 ^ (mant + 1) - 1) * 2 ^ (emax - mant).

(** [np.finfo(name)] as the pair [(min, max)], with [min = -max]; a
    complex kind is served by the floating kind of its parts.  The values
    are those of the extremes; in numpy they are floats of that kind. *)
Definition finfo (name : string) : result (Z * Z) :=
  match dtype name with
  | None => Raise TypeError
  | Some (Floating 16) => Ok (- float_max 10 15, float_max 10 15)
  | Some (Floating 32) | Some (Complex 64) =>
      Ok (- float_max 23 127, float_max 23 127)
  | Some (Floating 64) | Some (Complex 128) =>
      Ok (- float_max 52 1023, float_max 52 1023)
  | Some _ => Raise ValueError
  end.

(** Whether the extremes of [name] come from [np.finfo], that is, are
    numpy floats and not Python integers. *)
Definition from_finfo (name : string) : bool :=
  match dtype name with
  | Some (Floating _) | Some (Complex _) => true
  | _ => false
  end.

End Numpy.

(** [get_range_for_dtype_str(dtype)]: [np.iinfo], and [np.finfo] when that
    raises [ValueError]; every other exception propagates.  The extremes of
    the floating kinds are integers in value, so the range is a pair of
    [Z] for every kind. *)
Definition get_range_for_dtype_str (dtype : string) : result (Z * Z) :=
  match Numpy.iinfo dtype with
  | Ok type_info => Ok type_info
  | Raise ValueError => Numpy.finfo dtype
  | Raise e => Raise e
  end.

(** ** Binary64 values *)

Open Scope Q_scope.

Inductive npfloat : Type :=
| Fin (q : Q)
| Inf (negative : bool)
| NaN.

Definition Qltb (x y : Q) : bool := negb (Qle_bool y x).

(** [floor (log2 q)] for a positive [q]. *)
Definition ilog2 (q : Q) : Z :=
  let d := (Z.log2 (Qnum q) - Z.log2 (Zpos (Qden q)))%Z in
  if Qle_bool (2 ^ d) q then d else (d - 1)%Z.

(** Nearest integer, a tie going to the even neighbour. *)
Definition round_half_even (q : Q) : Z :=
  let f := Qfloor q in
  match Qcompare (q - inject_Z f) (1 # 2) with
  | Lt => f
  | Gt => (f + 1)%Z
  | Eq => if Z.even f then f else (f + 1)%Z
  end.

(** The exponent of the last place of a nonzero [q] in binary64: 52 below
    the binade of [q], and never below that of the subnormal numbers. *)
Definition ulp_exponent (q : Q) : Z := Z.max (ilog2 (Qabs q) - 52) (-1074).

(** Rounding of an exact result to binary64. *)
Definition round64 (q : Q) : npfloat :=
  if Qeq_bool q 0 then Fin 0
  else
    let e := ulp_exponent q in
    let r := Qred (inject_Z (round_half_even (q / 2 ^ e)) * 2 ^ e) in
    if Qle_bool (2 ^ 1024) (Qabs r) then Inf (Qltb q 0) else Fin r.

Definition fmul (x y : npfloat) : npfloat :=
  match x, y with
  | NaN, _ | _, NaN => NaN
  | Inf s, Inf t => Inf (xorb s t)
  | Inf s, Fin b => if Qeq_bool b 0 then NaN else Inf (xorb s (Qltb b 0))
  | Fin a, Inf t => if Qeq_bool a 0 then NaN else Inf (xorb (Qltb a 0) t)
  | Fin a, Fin b => round64 (a * b)
  end.

Definition fsub (x y : npfloat) : npfloat :=
  match x, y with
  | NaN, _ | _, NaN => NaN
  | Inf s, Inf t => if Bool.eqb s t then NaN else Inf s
  | Inf s, Fin _ => Inf s
  | Fin _, Inf t => Inf (negb t)
  | Fin a, Fin b => round64 (a - b)
  end.

(** numpy's [x / y]: a zero divisor gives NaN or an infinity (with a
    warning), never an exception. *)
Definition np_div (x y : npfloat) : npfloat :=
  match x, y with
  | NaN, _ | _, NaN => NaN
  | Inf _, Inf _ => NaN
  | Inf s, Fin b => Inf (xorb s (Qltb b 0))
  | Fin _, Inf _ => Fin 0
  | Fin a, Fin b =>
      if Qeq_bool b 0
      then if Qeq_bool a 0 then NaN else Inf (Qltb a 0)
      else round64 (a / b)
  end.

(** [x < y] on floats: false as soon as one side is NaN. *)
Definition flt (x y : npfloat) : bool :=
  match x, y with
  | NaN, _ | _, NaN => false
  | Inf s, Inf t => s && negb t
  | Inf s, Fin _ => s
  | Fin _, Inf t => negb t
  | Fin a, Fin b => Qltb a b
  end.

(** Python's [float(z)] and the conversion of the [int] operand of a mixed
    operation: the nearest binary64 value, [OverflowError] when that is
    an infinity.  The result is finite. *)
Definition py_float (z : Z) : result Q :=
  match round64 (inject_Z z) with
  | Fin q => Ok q
  | _ => Raise OverflowError
  end.

(** Python's [int / int]: the correctly rounded quotient,
    [ZeroDivisionError] on zero, [OverflowError] beyond the floats. *)
Definition py_truediv (a b : Z) : result Q :=
  if (b =? 0)%Z then Raise ZeroDivisionError
  else match round64 (inject_Z a / inject_Z b) with
       | Fin q => Ok q
       | _ => Raise OverflowError
       end.

(** Python's [float / float] on finite operands. *)
Definition float_truediv (a b : Q) : result npfloat :=
  if Qeq_bool b 0 then Raise ZeroDivisionError else Ok (round64 (a / b)).

(** Truncation toward zero of a rational. *)
Definition Qtrunc (q : Q) : Z := Z.quot (Qnum q) (Zpos (Qden q)).

(** Python's [int(x)] on a float: truncation toward zero; [ValueError] on
    NaN, [OverflowError] on an infinity. *)
Definition py_int (x : npfloat) : result Z :=
  match x with
  | Fin q => Ok (Qtrunc q)
  | Inf _ => Raise OverflowError
  | NaN => Raise ValueError
  end.

(** Python 3's [round(x)] with one argument: [round_half_even], with the
    exceptions of [int()] on the non-finite values. *)
Definition py_round (x : npfloat) : result Z :=
  match x with
  | Fin q => Ok (round_half_even q)
  | Inf _ => Raise OverflowError
  | NaN => Raise ValueError
  end.

(** [math.ceil(x)]. *)
Definition math_ceil (x : npfloat) : result Z :=
  match x with
  | Fin q => Ok (Qceiling q)
  | Inf _ => Raise OverflowError
  | NaN => Raise ValueError
  end.

(** Python's [max] and [min] of a list: a scan from the left that replaces
    the current item only by a strictly larger (smaller) one, so that a NaN
    is never taken and, in first place, never given up; [ValueError] on the
    empty list. *)
Fixpoint py_max_from (cur : npfloat) (l : list npfloat) : npfloat :=
  match l with
  | [] => cur
  | x :: l' => py_max_from (if flt cur x then x else cur) l'
  end.

Fixpoint py_min_from (cur : npfloat) (l : list npfloat) : npfloat :=
  match l with
  | [] => cur
  | x :: l' => py_min_from (if flt x cur then x else cur) l'
  end.

Definition py_max (l : list npfloat) : result npfloat :=
  match l with
  | [] => Raise ValueError
  | x :: l' => Ok (py_max_from x l')
  end.

Definition py_min (l : list npfloat) : result npfloat :=
  match l with
  | [] => Raise ValueError
  | x :: l' => Ok (py_min_from x l')
  end.

(** [weights_scale : Union[float, List[float]]]. *)
Inductive scales : Type :=
| Scalar (s : npfloat)
| PerChannel (ss : list npfloat).

(** numpy's [maximum] and [minimum] of two floats: a NaN propagates. *)
Definition np_maximum (a b : npfloat) : npfloat :=
  match a, b with
  | NaN, _ | _, NaN => NaN
  | _, _ => if flt a b then b else a
  end.

Definition np_minimum (a b : npfloat) : npfloat :=
  match a, b with
  | NaN, _ | _, NaN => NaN
  | _, _ => if flt b a then b else a
  end.

(** [np.max] and [np.min] of a scalar or of a list (zero-size lists raise
    [ValueError]). *)
Definition np_max (ws : scales) : result npfloat :=
  match ws with
  | Scalar s => Ok s
  | PerChannel [] => Raise ValueError
  | PerChannel (s :: ss) => Ok (fold_left np_maximum ss s)
  end.

Definition np_min (ws : scales) : result npfloat :=
  match ws with
  | Scalar s => Ok s
  | PerChannel [] => Raise ValueError
  | PerChannel (s :: ss) => Ok (fold_left np_minimum ss s)
  end.

(** A decimal literal of the source, and any float given by its value. *)
Definition literal (q : Q) : npfloat := round64 q.

(** ** [get_same_padding] *)

(** [int(math.ceil(float(a) / float(b)))]. *)
Definition ceil_div (a b : Z) : result Z :=
  fa <- py_float a ;;
  fb <- py_float b ;;
  q <- float_truediv fa fb ;;
  math_ceil q.

Definition get_same_padding (in_shape kernel dilation stride : list Z)
  : result (list Z) :=
  d0 <- py_index dilation 0 ;;
  k0 <- py_index kernel 0 ;;
  let dilated_kernel_h := (d0 * (k0 - 1) + 1)%Z in
  i0 <- py_index in_shape 0 ;;
  fi0 <- py_float i0 ;;
  s0 <- py_index stride 0 ;;
  fs0 <- py_float s0 ;;
  q <- float_truediv fi0 fs0 ;;
  out <- math_ceil q ;;
  let pad := Z.max 0 ((out - 1) * s0 + dilated_kernel_h - i0) in
  let pad_top := (pad / 2)%Z in
  let pad_bottom := (pad - pad_top)%Z in
  d1 <- py_index dilation 1 ;;
  k1 <- py_index kernel 1 ;;
  let dilated_kernel_w := (d1 * (k1 - 1) + 1)%Z in
  i1 <- py_index in_shape 1 ;;
  fi1 <- py_float i1 ;;
  s1 <- py_index stride 1 ;;
  fs1 <- py_float s1 ;;
  q <- float_truediv fi1 fs1 ;;
  out <- math_ceil q ;;
  let pad := Z.max 0 ((out - 1) * s1 + dilated_kernel_w - i1) in
  let pad_left := (pad / 2)%Z in
  let pad_right := (pad - pad_left)%Z in
  Ok [pad_top; pad_left; pad_bottom; pad_right].

(** ** [get_conv2d_qnn_params] *)

(** [extreme - zp] as the float operand of a product.  For an integer dtype
    the difference is taken on the integers and then converted.  For a
    floating dtype the extreme is a numpy float, and the precision of the
    difference depends on numpy's scalar promotion: it is taken in
    binary64 here. *)
Definition dtype_minus (dtype : string) (extreme zp : Z) : result npfloat :=
  if Numpy.from_finfo dtype then
    e <- py_float extreme ;;
    z <- py_float zp ;;
    Ok (fsub (Fin e) (Fin z))
  else
    d <- py_float (extreme - zp) ;;
    Ok (Fin d).

(** [output_dtype_max - output_dtype_min] as the divisor of a float: the
    converted integer width for an integer dtype; for a floating dtype the
    difference of its two extremes in its own arithmetic, which
    overflows. *)
Definition dtype_width (dtype : string) (lo hi : Z) : result npfloat :=
  if Numpy.from_finfo dtype then Ok (Inf false)
  else
    w <- py_float (hi - lo) ;;
    Ok (Fin w).

(** The local variables of [get_conv2d_qnn_params] that the last two
    assignments read, with the list [output_limits] they come from. *)
Record conv2d_locals : Type := {
  output_limits : list npfloat;
  output_max : npfloat;
  output_min : npfloat;
  output_dtype_min : Z;
  output_dtype_max : Z
}.

(** The body of [get_conv2d_qnn_params] down to the lookup of the output
    dtype's range.  [num_elements] is an [int], converted when it meets a
    float, and a [float] after the true division of the depthwise case. *)
Definition conv2d_output_limits
    (weight_shape : list Z) (input_scale : npfloat) (input_zp : Z)
    (weights_scale : scales) (weights_zp : Z)
    (input_dtype weights_dtype output_dtype : string) (is_depthwise : bool)
  : result conv2d_locals :=
  '(input_dtype_min, input_dtype_max) <- get_range_for_dtype_str input_dtype ;;
  a <- dtype_minus input_dtype input_dtype_max input_zp ;;
  let input_max := fmul input_scale a in
  b <- dtype_minus input_dtype input_dtype_min input_zp ;;
  let input_min := fmul input_scale b in
  '(weights_dtype_min, weights_dtype_max) <-
     get_range_for_dtype_str weights_dtype ;;
  weights_sc_max <- np_max weights_scale ;;
  c <- dtype_minus weights_dtype weights_dtype_max weights_zp ;;
  let weights_max := fmul weights_sc_max c in
  weights_sc_min <- np_min weights_scale ;;
  d <- dtype_minus weights_dtype weights_dtype_min weights_zp ;;
  let weights_min := fmul weights_sc_min d in
  weights_h <- py_index weight_shape 1 ;;
  weights_w <- py_index weight_shape 2 ;;
  channels <- py_index weight_shape 3 ;;
  let num_elements := (weights_h * weights_w * channels)%Z in
  num_elements <-
    (if is_depthwise then py_truediv num_elements channels
     else py_float num_elements) ;;
  let output_limits :=
    [ fmul (fmul weights_max input_max) (Fin num_elements);
      fmul (fmul weights_min input_max) (Fin num_elements);
      fmul (fmul weights_min input_min) (Fin num_elements);
      fmul (fmul weights_max input_min) (Fin num_elements) ] in
  output_max <- py_max output_limits ;;
  output_min <- py_min output_limits ;;
  '(output_dtype_min, output_dtype_max) <-
     get_range_for_dtype_str output_dtype ;;
  Ok {| output_limits := output_limits;
        output_max := output_max; output_min := output_min;
        output_dtype_min := output_dtype_min;
        output_dtype_max := output_dtype_max |}.

(** [output_scale = (output_max - output_min) /
    (output_dtype_max - output_dtype_min)]. *)
Definition output_scale_of (output_dtype : string) (l : conv2d_locals)
  : result npfloat :=
  width <- dtype_width output_dtype (output_dtype_min l) (output_dtype_max l) ;;
  Ok (np_div (fsub (output_max l) (output_min l)) width).

(** The float that [int()] is applied to:
    [output_dtype_min - (output_min / output_scale)]. *)
Definition output_zp_float (l : conv2d_locals) (output_scale : npfloat)
  : result npfloat :=
  lo <- py_float (output_dtype_min l) ;;
  Ok (fsub (Fin lo) (np_div (output_min l) output_scale)).

Definition get_conv2d_qnn_params
    (weight_shape : list Z) (input_scale : npfloat) (input_zp : Z)
    (weights_scale : scales) (weights_zp : Z)
    (input_dtype weights_dtype output_dtype : string) (is_depthwise : bool)
  : result (npfloat * Z) :=
  l <- conv2d_output_limits weight_shape input_scale input_zp weights_scale
         weights_zp input_dtype weights_dtype output_dtype is_depthwise ;;
  output_scale <- output_scale_of output_dtype l ;;
  v <- output_zp_float l output_scale ;;
  output_zp <- py_int v ;;
  Ok (output_scale, output_zp).

(** ** [make_qnn_relu] *)

(** What [make_qnn_relu] returns: the expression itself, a clip of it, or
    [None] when the function falls off its end.  The bounds of a clip are
    an [int] or a [float]; they are kept by their values. *)
Inductive relu_out (E : Type) : Type :=
| Same (expr : E)
| Clip (expr : E) (a_min a_max : Q)
| PyNone.

Arguments Same {E} expr.
Arguments Clip {E} expr a_min a_max.
Arguments PyNone {E}.

(** [quantize = lambda x: float(int(round(x / scale)) + zero_point)], with
    [scale] an [np.float64], as [get_conv2d_qnn_params] returns it: a zero
    scale gives a NaN or an infinity, on which [round] raises. *)
Definition quantize (scale : npfloat) (zero_point : Z) (x : Q) : result Q :=
  r <- py_round (np_div (Fin x) scale) ;;
  py_float (r + zero_point).

(** Python's [max(a, b)] and [min(a, b)] of two finite numbers. *)
Definition py_max2 (a b : Q) : Q := if Qltb a b then b else a.
Definition py_min2 (a b : Q) : Q := if Qltb b a then b else a.

Definition make_qnn_relu {E : Type} (expr : E) (fused_activation_fn : string)
    (scale : npfloat) (zero_point : Z) (dtype : string)
  : result (relu_out E) :=
  '(qmin, qmax) <- get_range_for_dtype_str dtype ;;
  if (fused_activation_fn =? "NONE")%string then Ok (Same expr)
  else if (fused_activation_fn =? "RELU6")%string then
    q0 <- quantize scale zero_point 0 ;;
    q6 <- quantize scale zero_point 6 ;;
    Ok (Clip expr (py_max2 (inject_Z qmin) q0) (py_min2 (inject_Z qmax) q6))
  else if (fused_activation_fn =? "RELU_N1_TO_1")%string then
    qm1 <- quantize scale zero_point (-1) ;;
    q1 <- quantize scale zero_point 1 ;;
    Ok (Clip expr (py_max2 (inject_Z qmin) qm1) (py_min2 (inject_Z qmax) q1))
  else if (fused_activation_fn =? "RELU")%string then
    q0 <- quantize scale zero_point 0 ;;
    Ok (Clip expr (py_max2 (inject_Z qmin) q0) (inject_Z qmax))
  else Ok PyNone.

(** ** The partitioning checks *)

Module Partitioning.

(** What the checks read of an [IRModule]: its global functions in the
    order of [get_global_vars()], each with its [attrs], which is [None] or
    a dictionary whose values are strings or other objects. *)
Inductive attr_value : Type :=
| AStr (s : string)
| AOther.

Definition dict_attrs : Type := list (string * attr_value).

Record global_func : Type := { attrs : option dict_attrs }.

Definition ir_module : Type := list global_func.

(** The outcome of a function made of [assert] statements. *)
Inductive check : Type :=
| Passed
| AssertionError (message : string).

(** Truth value of an [attrs]: [None] and the empty dictionary are
    false. *)
Definition truthy (a : option dict_attrs) : bool :=
  match a with
  | Some (_ :: _) => true
  | _ => false
  end.

(** The comprehension [[f.attrs for f in mod if f.attrs]]. *)
Definition external_attrs (mod_ : ir_module) : list (option dict_attrs) :=
  filter truthy (map attrs mod_).

Definition items (a : option dict_attrs) : dict_attrs :=
  match a with
  | Some d => d
  | None => []
  end.

Definition value_eqb (v : attr_value) (s : string) : bool :=
  match v with
  | AStr t => String.eqb t s
  | AOther => false
  end.

(** [key == "Compiler" and value == "cmsis-nn"]. *)
Definition is_cmsisnn (kv : string * attr_value) : bool :=
  String.eqb (fst kv) "Compiler" && value_eqb (snd kv) "cmsis-nn".

Definition assert_no_external_function (mod_ : ir_module) : check :=
  let attrs := external_attrs mod_ in
  if negb (existsb truthy attrs) then Passed
  else AssertionError "No function should have an external attribute.".

(** [count_num_calls] walks Relay expressions, which are not modelled: the
    counter is a parameter. *)
Definition assert_partitioned_function (count_num_calls : ir_module -> nat)
    (orig_mod cmsisnn_mod : ir_module) : check :=
  let attrs := external_attrs cmsisnn_mod in
  if negb (existsb truthy attrs) then
    AssertionError
      "At least one function with external attributes was expected."
  else
    let compilers := flat_map (fun a => map is_cmsisnn (items a)) attrs in
    if negb (existsb (fun b : bool => b) compilers) then
      AssertionError "Module does not contain function for cmsisnn target."
    else if negb (Nat.eqb (count_num_calls orig_mod)
                    (count_num_calls cmsisnn_mod)) then
      AssertionError "Number of calls changed during partitioning"
    else Passed.

End Partitioning.

(** ** Notions the properties are stated with *)

(** The exact value [round64] rounds to, before the overflow test. *)
Definition raw64 (q : Q) : Q :=
  inject_Z (round_half_even (q / 2 ^ ulp_exponent q)) * 2 ^ ulp_exponent q.

(** The order of the floats; nothing compares with NaN. *)
Definition fle (x y : npfloat) : Prop :=
  match x, y with
  | NaN, _ | _, NaN => False
  | Inf true, _ => True
  | _, Inf false => True
  | Fin a, Fin b => a <= b
  | _, _ => False
  end.

(** Python's [x == y] on floats: false as soon as one side is NaN. *)
Definition feq (x y : npfloat) : Prop :=
  match x, y with
  | Fin a, Fin b => a == b
  | Inf s, Inf t => s = t
  | _, _ => False
  end.

Definition is_finite (x : npfloat) : Prop :=
  match x with
  | Fin _ => True
  | _ => False
  end.

(** Round to the nearest integer, a tie going away from zero: the rule the
    specification names, for comparison with [Qtrunc] and
    [round_half_even]. *)
Definition round_half_away (q : Q) : Z :=
  if Qle_bool 0 q then Qfloor (q + (1 # 2)) else Qceiling (q - (1 # 2)).

(** The per-axis padding as the specification writes it, with the ceiling
    of the exact quotient. *)
Definition spec_pad_axis (input kernel dilation stride : Z) : Z * Z :=
  let effective_kernel := (dilation * (kernel - 1) + 1)%Z in
  let out := Qceiling (inject_Z input / inject_Z stride) in
  let total_pad := Z.max 0 ((out - 1) * stride + effective_kernel - input) in
  let pad_before := (total_pad / 2)%Z in
  (pad_before, (total_pad - pad_before)%Z).

(** [z] is [v] truncated toward zero. *)
Definition truncation_of (v : Q) (z : Z) : Prop :=
  (0 <= v -> inject_Z z <= v /\ v < inject_Z z + 1) /\
  (v <= 0 -> inject_Z z - 1 < v /\ v <= inject_Z z).

(** [z] is an integer nearest to [v], and the even one of the two when [v]
    lies halfway between two integers. *)
Definition nearest_even_of (v : Q) (z : Z) : Prop :=
  (inject_Z z - (1 # 2) <= v /\ v <= inject_Z z + (1 # 2)) /\
  (v == inject_Z z - (1 # 2) \/ v == inject_Z z + (1 # 2) -> Z.even z = true).

(** Two floats hold the same value. *)
Definition npfloat_eq (x y : npfloat) : Prop :=
  match x, y with
  | Fin a, Fin b => a == b
  | Inf s, Inf t => s = t
  | NaN, NaN => True
  | _, _ => False
  end.

(** Two calls of [get_conv2d_qnn_params] end alike: with the same scale and
    zero point, or with the same exception. *)
Definition same_outcome (r r' : result (npfloat * Z)) : Prop :=
  match r, r' with
  | Ok (s, zp), Ok (s', zp') => npfloat_eq s s' /\ zp = zp'
  | Raise e, Raise e' => e = e'
  | _, _ => False
  end.

(** [x] lies between zero and [y]: same sign, no larger magnitude. *)
Definition dominated (x y : Q) : Prop :=
  (0 <= x /\ x <= y) \/ (y <= x /\ x <= 0).

(** The list [output_limits] from the extremes it multiplies: the input
    scale, the two float differences of the input dtype, the two weight
    extremes and the number of elements. *)
Definition limits_of (input_scale a b weights_max weights_min : npfloat)
    (num_elements : Q) : list npfloat :=
  [ fmul (fmul weights_max (fmul input_scale a)) (Fin num_elements);
    fmul (fmul weights_min (fmul input_scale a)) (Fin num_elements);
    fmul (fmul weights_min (fmul input_scale b)) (Fin num_elements);
    fmul (fmul weights_max (fmul input_scale b)) (Fin num_elements) ].

(** * Properties *)

(** * Powers of two *)

Lemma pow2_pos (e : Z) : 0 < 2 ^ e.
Proof. apply Qpower_0_lt. reflexivity. Qed.

Lemma pow2_add (a b : Z) : 2 ^ (a + b) == 2 ^ a * 2 ^ b.
Proof. apply Qpower_plus. discriminate. Qed.

Lemma pow2_sub (a b : Z) : 2 ^ (a - b) == 2 ^ a / 2 ^ b.
Proof.
  unfold Z.sub. rewrite pow2_add, Qpower_opp. reflexivity.
Qed.

Lemma pow2_le (a b : Z) : (a <= b)%Z -> 2 ^ a <= 2 ^ b.
Proof. intros H. apply Qpower_le_compat_l; [exact H | discriminate]. Qed.

Lemma pow2_lt (a b : Z) : (a < b)%Z -> 2 ^ a < 2 ^ b.
Proof. intros H. apply Qpower_lt_compat_l; [exact H | reflexivity]. Qed.

Lemma pow2_lt_inv (a b : Z) : 2 ^ a < 2 ^ b -> (a < b)%Z.
Proof. intros H. apply (Qpower_lt_compat_l_inv 2); [exact H | reflexivity]. Qed.

Lemma pow2_Z (a : Z) : (0 <= a)%Z -> 2 ^ a == inject_Z (2 ^ a).
Proof. intros H. symmetry. now apply (Zpower_Qpower 2). Qed.

(** * The binade of a positive rational *)

Lemma ilog2_spec (q : Q) :
  0 < q -> 2 ^ ilog2 q <= q /\ q < 2 ^ (ilog2 q + 1).
Proof.
  intros Hq. unfold ilog2.
  destruct q as [n p]. cbn [Qnum Qden].
  assert (Hn : (0 < n)%Z) by (unfold Qlt in Hq; cbn in Hq; lia).
  set (a := Z.log2 n). set (b := Z.log2 (Zpos p)).
  assert (Ha : (0 <= a)%Z) by apply Z.log2_nonneg.
  assert (Hb : (0 <= b)%Z) by apply Z.log2_nonneg.
  destruct (Z.log2_spec n Hn) as [A1 A2]. fold a in A1, A2.
  destruct (Z.log2_spec (Zpos p) eq_refl) as [B1 B2]. fold b in B1, B2.
  rewrite Zle_Qle in A1, B1. rewrite Zlt_Qlt in A2, B2.
  rewrite <- pow2_Z in A1, A2, B1, B2 by lia.
  replace (Z.succ a) with (a + 1)%Z in A2 by lia.
  replace (Z.succ b) with (b + 1)%Z in B2 by lia.
  assert (E : (n # p) * inject_Z (Zpos p) == inject_Z n).
  { unfold Qeq, Qmult, inject_Z. cbn. lia. }
  set (q := n # p) in *.
  assert (Pq : 0 < q) by exact Hq.
  assert (Up : q < 2 ^ (a - b + 1)).
  { replace (a - b + 1)%Z with ((a + 1) - b)%Z by lia. rewrite pow2_sub.
    apply Qlt_shift_div_l; [apply pow2_pos|].
    apply Qle_lt_trans with (q * inject_Z (Zpos p)); [|rewrite E; exact A2].
    apply Qmult_le_l; assumption. }
  assert (Lo : 2 ^ (a - b - 1) < q).
  { replace (a - b - 1)%Z with (a - (b + 1))%Z by lia. rewrite pow2_sub.
    apply Qlt_shift_div_r; [apply pow2_pos|].
    apply Qle_lt_trans with (q * inject_Z (Zpos p)); [rewrite E; exact A1|].
    apply Qmult_lt_l; assumption. }
  destruct (Qle_bool (2 ^ (a - b)) q) eqn:C.
  - apply Qle_bool_iff in C. split; assumption.
  - split; [apply Qlt_le_weak; exact Lo|].
    replace (a - b - 1 + 1)%Z with (a - b)%Z by lia.
    destruct (Qlt_le_dec q (2 ^ (a - b))) as [L|L]; [exact L|].
    apply Qle_bool_iff in L. congruence.
Qed.

Lemma ilog2_unique (q : Q) (j : Z) :
  2 ^ j <= q -> q < 2 ^ (j + 1) -> ilog2 q = j.
Proof.
  intros L U.
  assert (Hq : 0 < q) by (pose proof (pow2_pos j); lra).
  destruct (ilog2_spec q Hq) as [L' U'].
  assert (ilog2 q < j + 1)%Z by (apply pow2_lt_inv; lra).
  assert (j < ilog2 q + 1)%Z by (apply pow2_lt_inv; lra).
  lia.
Qed.

Lemma ilog2_comp (x y : Q) : 0 < x -> x == y -> ilog2 x = ilog2 y.
Proof.
  intros Hx E. symmetry. destruct (ilog2_spec x Hx) as [L U].
  apply ilog2_unique; lra.
Qed.

Lemma ilog2_mono (x y : Q) : 0 < x -> x <= y -> (ilog2 x <= ilog2 y)%Z.
Proof.
  intros Hx L. destruct (ilog2_spec x Hx) as [Lx Ux].
  destruct (ilog2_spec y) as [Ly Uy]; [lra|].
  assert (ilog2 x < ilog2 y + 1)%Z by (apply pow2_lt_inv; lra). lia.
Qed.

(** * Integer conversions *)

Lemma inject_Z_succ (z : Z) : inject_Z (z + 1) == inject_Z z + 1.
Proof. now rewrite inject_Z_plus. Qed.

Lemma inject_Z_sub (a b : Z) : inject_Z (a - b) == inject_Z a - inject_Z b.
Proof. unfold Z.sub. rewrite inject_Z_plus, inject_Z_opp. reflexivity. Qed.

Lemma Qtrunc_nonneg (q : Q) : 0 <= q -> Qtrunc q = Qfloor q.
Proof.
  destruct q as [n d]. unfold Qle, Qtrunc, Qfloor. cbn. intros H.
  apply Z.quot_div_nonneg; lia.
Qed.

Lemma Qtrunc_nonpos (q : Q) : q <= 0 -> Qtrunc q = Qceiling q.
Proof.
  destruct q as [n d]. unfold Qle, Qtrunc, Qceiling, Qfloor. cbn. intros H.
  rewrite <- (Z.opp_involutive n) at 1.
  rewrite Z.quot_opp_l by lia.
  f_equal. apply Z.quot_div_nonneg; lia.
Qed.

Lemma Qtrunc_spec (q : Q) : truncation_of q (Qtrunc q).
Proof.
  split; intros H.
  - rewrite (Qtrunc_nonneg q H). split; [apply Qfloor_le|].
    pose proof (Qlt_floor q) as L. rewrite inject_Z_plus in L. exact L.
  - rewrite (Qtrunc_nonpos q H). split; [|apply Qle_ceiling].
    pose proof (Qceiling_lt q) as L.
    unfold Z.sub in L. rewrite inject_Z_plus in L. exact L.
Qed.

Lemma round_half_even_spec (q : Q) : nearest_even_of q (round_half_even q).
Proof.
  unfold round_half_even, nearest_even_of.
  pose proof (Qfloor_le q) as Lo. pose proof (Qlt_floor q) as Hi.
  rewrite inject_Z_succ in Hi.
  set (f := Qfloor q) in *.
  destruct (Qcompare_spec (q - inject_Z f) (1 # 2)) as [E|L|G].
  - destruct (Z.even f) eqn:Ev.
    + split; [split; lra | auto].
    + rewrite inject_Z_succ. split; [split; lra|].
      intros _. rewrite Z.add_1_r, Z.even_succ, <- Z.negb_even, Ev.
      reflexivity.
  - split; [split; lra|]. intros [E|E]; lra.
  - rewrite inject_Z_succ. split; [split; lra|]. intros [E|E]; lra.
Qed.

Lemma nearest_even_le (v v' : Q) (n n' : Z) :
  v <= v' -> nearest_even_of v n -> nearest_even_of v' n' -> (n <= n')%Z.
Proof.
  intros L [[Lo Hi] Ev] [[Lo' Hi'] Ev'].
  destruct (Z_le_gt_dec n n') as [C|C]; [exact C|].
  assert (S : (n' + 1 <= n)%Z) by lia.
  rewrite Zle_Qle, inject_Z_succ in S.
  assert (E1 : v == inject_Z n - (1 # 2)) by lra.
  assert (E2 : v' == inject_Z n' + (1 # 2)) by lra.
  assert (E3 : inject_Z n == inject_Z (n' + 1)) by (rewrite inject_Z_succ; lra).
  assert (E4 : n = (n' + 1)%Z) by (apply inject_Z_injective; exact E3).
  pose proof (Ev (or_introl E1)) as P. pose proof (Ev' (or_intror E2)) as P'.
  rewrite E4, Z.add_1_r, Z.even_succ, <- Z.negb_even, P' in P.
  discriminate P.
Qed.

Lemma nearest_even_unique (v v' : Q) (n n' : Z) :
  v == v' -> nearest_even_of v n -> nearest_even_of v' n' -> n = n'.
Proof.
  intros E H H'. apply Z.le_antisymm.
  - apply (nearest_even_le v v'); [lra | assumption | assumption].
  - apply (nearest_even_le v' v); [lra | assumption | assumption].
Qed.

Lemma round_half_even_mono (x y : Q) :
  x <= y -> (round_half_even x <= round_half_even y)%Z.
Proof.
  intros L. apply (nearest_even_le x y); [exact L | |];
    apply round_half_even_spec.
Qed.

Lemma round_half_even_comp (x y : Q) :
  x == y -> round_half_even x = round_half_even y.
Proof.
  intros E. apply (nearest_even_unique x y); [exact E | |];
    apply round_half_even_spec.
Qed.

Lemma round_half_even_opp (x : Q) :
  round_half_even (- x) = (- round_half_even x)%Z.
Proof.
  apply (nearest_even_unique (- x) (- x)); [reflexivity | |].
  - apply round_half_even_spec.
  - destruct (round_half_even_spec x) as [[Lo Hi] Ev].
    unfold nearest_even_of. rewrite inject_Z_opp, Z.even_opp.
    split; [split; lra|]. intros [E|E]; apply Ev; [right | left]; lra.
Qed.

Lemma round_half_even_Z (q : Q) (z : Z) :
  q == inject_Z z -> round_half_even q = z.
Proof.
  intros E. apply (nearest_even_unique q q); [reflexivity | |].
  - apply round_half_even_spec.
  - split; [split; lra|]. intros [F|F]; lra.
Qed.

Lemma round_half_even_le_Z (q : Q) (z : Z) :
  q <= inject_Z z -> (round_half_even q <= z)%Z.
Proof.
  intros L. rewrite <- (round_half_even_Z (inject_Z z) z) by reflexivity.
  now apply round_half_even_mono.
Qed.

Lemma round_half_even_ge_Z (q : Q) (z : Z) :
  inject_Z z <= q -> (z <= round_half_even q)%Z.
Proof.
  intros L. rewrite <- (round_half_even_Z (inject_Z z) z) at 1 by reflexivity.
  now apply round_half_even_mono.
Qed.

Lemma round_half_even_near (q : Q) :
  q - (1 # 2) <= inject_Z (round_half_even q) /\
  inject_Z (round_half_even q) <= q + (1 # 2).
Proof.
  destruct (round_half_even_spec q) as [[Lo Hi] _]. split; lra.
Qed.

(** * Rounding to binary64 *)

Lemma Qabs_opp_eq (x : Q) : Qabs (- x) = Qabs x.
Proof. destruct x as [n d]. cbn. now rewrite Z.abs_opp. Qed.

Lemma Qabs_nonzero (x : Q) : ~ x == 0 -> 0 < Qabs x.
Proof.
  intros N. destruct (Qlt_le_dec 0 (Qabs x)) as [L|L]; [exact L|].
  exfalso. apply N. pose proof (Qabs_nonneg x) as P.
  assert (Z : Qabs x == 0) by lra.
  destruct (Qlt_le_dec x 0) as [C|C].
  - rewrite Qabs_neg in Z by lra. lra.
  - rewrite Qabs_pos in Z by lra. exact Z.
Qed.

Lemma ulp_exponent_comp (x y : Q) :
  ~ x == 0 -> x == y -> ulp_exponent x = ulp_exponent y.
Proof.
  intros N E. unfold ulp_exponent. f_equal. f_equal.
  apply ilog2_comp; [now apply Qabs_nonzero | now rewrite E].
Qed.

Lemma ulp_exponent_opp (x : Q) : ulp_exponent (- x) = ulp_exponent x.
Proof. unfold ulp_exponent. now rewrite Qabs_opp_eq. Qed.

Lemma ulp_exponent_min (x : Q) : (-1074 <= ulp_exponent x)%Z.
Proof. unfold ulp_exponent. lia. Qed.

Lemma ulp_exponent_pos (x : Q) :
  0 < x -> ulp_exponent x = Z.max (ilog2 x - 52) (-1074).
Proof.
  intros H. unfold ulp_exponent. f_equal. f_equal.
  apply ilog2_comp; [apply Qabs_nonzero; lra | apply Qabs_pos; lra].
Qed.

Lemma ulp_exponent_mono (x y : Q) :
  0 < x -> x <= y -> (ulp_exponent x <= ulp_exponent y)%Z.
Proof.
  intros Hx L. rewrite !ulp_exponent_pos by lra.
  pose proof (ilog2_mono x y Hx L). lia.
Qed.

(** The last place of [q] is at or below [2 ^ k] as soon as [q] is below
    [2 ^ (k + 53)] and [k] is not below the subnormal exponent. *)
Lemma ulp_exponent_le (q : Q) (k : Z) :
  (-1074 <= k)%Z -> 0 < q -> q < 2 ^ (k + 53) -> (ulp_exponent q <= k)%Z.
Proof.
  intros Hk Hq L. rewrite ulp_exponent_pos by exact Hq.
  destruct (ilog2_spec q Hq) as [Lo _].
  assert (ilog2 q < k + 53)%Z by (apply pow2_lt_inv; lra). lia.
Qed.

Lemma raw64_zero (q : Q) : q == 0 -> raw64 q == 0.
Proof.
  intros E. unfold raw64.
  assert (D : forall d, q / d == inject_Z 0).
  { intros d. rewrite E. unfold Qdiv. ring. }
  rewrite (round_half_even_Z _ 0 (D _)). ring.
Qed.

Lemma raw64_comp (x y : Q) : x == y -> raw64 x == raw64 y.
Proof.
  intros E. destruct (Qeq_dec x 0) as [Z|N].
  - assert (Zy : y == 0) by lra.
    pose proof (raw64_zero x Z). pose proof (raw64_zero y Zy). lra.
  - unfold raw64. rewrite <- (ulp_exponent_comp x y N E).
    assert (D : forall d, y / d == x / d).
    { intros d. rewrite E. reflexivity. }
    rewrite (round_half_even_comp _ _ (D _)). reflexivity.
Qed.

Lemma raw64_opp (x : Q) : raw64 (- x) == - raw64 x.
Proof.
  unfold raw64. rewrite ulp_exponent_opp.
  rewrite (round_half_even_comp (- x / 2 ^ ulp_exponent x)
             (- (x / 2 ^ ulp_exponent x))).
  - rewrite round_half_even_opp, inject_Z_opp. ring.
  - unfold Qdiv. ring.
Qed.

Lemma raw64_nonneg (x : Q) : 0 <= x -> 0 <= raw64 x.
Proof.
  intros H. unfold raw64.
  pose proof (pow2_pos (ulp_exponent x)) as P.
  apply Qmult_le_0_compat; [|lra].
  assert (0 <= x / 2 ^ ulp_exponent x).
  { apply Qle_shift_div_l; [exact P | lra]. }
  change 0 with (inject_Z 0). rewrite <- Zle_Qle.
  rewrite <- (round_half_even_Z 0 0) by reflexivity.
  now apply round_half_even_mono.
Qed.

Lemma raw64_nonpos (x : Q) : x <= 0 -> raw64 x <= 0.
Proof.
  intros H. assert (P : 0 <= raw64 (- x)) by (apply raw64_nonneg; lra).
  rewrite raw64_opp in P. lra.
Qed.

(** A multiple of the last place is kept. *)
Lemma raw64_multiple (q : Q) (m k : Z) :
  (ulp_exponent q <= k)%Z -> q == inject_Z m * 2 ^ k -> raw64 q == q.
Proof.
  intros Hk E. unfold raw64.
  set (e := ulp_exponent q) in *.
  pose proof (pow2_pos e) as P.
  assert (D : 2 ^ k == 2 ^ (k - e) * 2 ^ e).
  { rewrite <- pow2_add. now replace (k - e + e)%Z with k by lia. }
  rewrite (round_half_even_Z (q / 2 ^ e) (m * 2 ^ (k - e))).
  - rewrite inject_Z_mult, <- pow2_Z by lia. rewrite E, D. ring.
  - rewrite inject_Z_mult, <- pow2_Z by lia. rewrite E, D. field. lra.
Qed.

Lemma raw64_exact (q : Q) (m k : Z) :
  (-1074 <= k)%Z -> Qabs q < 2 ^ (k + 53) -> q == inject_Z m * 2 ^ k ->
  raw64 q == q.
Proof.
  intros Hk B E. destruct (Qlt_le_dec q 0) as [N|P].
  - assert (R : raw64 (- q) == - q).
    { apply (raw64_multiple (- q) (- m) k).
      - apply ulp_exponent_le; [exact Hk | lra |].
        rewrite Qabs_neg in B by lra. exact B.
      - rewrite inject_Z_opp, E. ring. }
    rewrite raw64_opp in R. lra.
  - destruct (Qeq_dec q 0) as [Z|NZ]; [rewrite (raw64_zero q Z); lra|].
    apply (raw64_multiple q m k); [|exact E].
    apply ulp_exponent_le; [exact Hk | lra |].
    rewrite Qabs_pos in B by lra. exact B.
Qed.

(** The rounding error is at most half a unit in the last place. *)
Lemma raw64_near (q : Q) :
  q - 2 ^ (ulp_exponent q - 1) <= raw64 q /\
  raw64 q <= q + 2 ^ (ulp_exponent q - 1).
Proof.
  unfold raw64. set (e := ulp_exponent q).
  pose proof (pow2_pos e) as P.
  destruct (round_half_even_near (q / 2 ^ e)) as [Lo Hi].
  assert (H : 2 ^ (e - 1) == (1 # 2) * 2 ^ e).
  { rewrite pow2_sub. change (2 ^ 1) with 2. field. }
  assert (Qv : q == q / 2 ^ e * 2 ^ e) by (field; lra).
  rewrite H.
  remember (inject_Z (round_half_even (q / 2 ^ e))) as n eqn:En.
  remember (q / 2 ^ e) as v eqn:Ev.
  remember (2 ^ e) as p eqn:Ep.
  clear En Ev Ep H. split.
  - apply Qle_trans with ((v - (1 # 2)) * p).
    + rewrite Qv at 1. ring_simplify. apply Qle_refl.
    + apply Qmult_le_compat_r; lra.
  - apply Qle_trans with ((v + (1 # 2)) * p).
    + apply Qmult_le_compat_r; lra.
    + rewrite Qv at 1. ring_simplify. apply Qle_refl.
Qed.

Lemma raw64_mono_pos (x y : Q) : 0 < x -> x <= y -> raw64 x <= raw64 y.
Proof.
  intros Hx L.
  pose proof (ulp_exponent_mono x y Hx L) as Le.
  destruct (Z.eq_dec (ulp_exponent x) (ulp_exponent y)) as [E|N].
  - unfold raw64. rewrite <- E. set (e := ulp_exponent x).
    pose proof (pow2_pos e) as P.
    apply Qmult_le_compat_r; [|lra].
    rewrite <- Zle_Qle. apply round_half_even_mono.
    apply Qmult_le_compat_r; [exact L|].
    apply Qlt_le_weak, Qinv_lt_0_compat, P.
  - assert (Lt : (ulp_exponent x < ulp_exponent y)%Z) by lia.
    rewrite (ulp_exponent_pos x Hx) in Lt.
    assert (Hy : 0 < y) by lra.
    assert (Ey : ulp_exponent y = (ilog2 y - 52)%Z).
    { rewrite (ulp_exponent_pos y Hy) in *. lia. }
    set (j := ilog2 y) in *.
    destruct (ilog2_spec x Hx) as [_ Ux].
    destruct (ilog2_spec y Hy) as [Ly _]. fold j in Ly.
    assert (Xj : x <= 2 ^ j).
    { apply Qle_trans with (2 ^ (ilog2 x + 1)); [lra|].
      apply pow2_le. lia. }
    apply Qle_trans with (2 ^ j).
    + (* raw64 x <= 2 ^ j *)
      unfold raw64. rewrite (ulp_exponent_pos x Hx).
      set (e := Z.max (ilog2 x - 52) (-1074)) in *.
      pose proof (pow2_pos e) as P.
      assert (D : 2 ^ j == 2 ^ (j - e) * 2 ^ e).
      { rewrite <- pow2_add. now replace (j - e + e)%Z with j by lia. }
      apply Qle_trans with (2 ^ (j - e) * 2 ^ e); [|lra].
      apply Qmult_le_compat_r; [|lra].
      assert (Pz : 2 ^ (j - e) == inject_Z (2 ^ (j - e))) by (apply pow2_Z; lia).
      apply Qle_trans with (inject_Z (2 ^ (j - e))); [|lra].
      rewrite <- Zle_Qle. apply round_half_even_le_Z.
      apply Qle_shift_div_r; [exact P|]. rewrite <- Pz, <- D. exact Xj.
    + (* 2 ^ j <= raw64 y *)
      unfold raw64. rewrite Ey.
      set (e := (j - 52)%Z).
      pose proof (pow2_pos e) as P.
      assert (D : 2 ^ j == 2 ^ 52 * 2 ^ e).
      { rewrite <- pow2_add. now replace (52 + e)%Z with j by (unfold e; lia). }
      apply Qle_trans with (2 ^ 52 * 2 ^ e); [lra|].
      apply Qmult_le_compat_r; [|lra].
      assert (Pz : 2 ^ 52 == inject_Z (2 ^ 52)) by (apply pow2_Z; lia).
      apply Qle_trans with (inject_Z (2 ^ 52)); [lra|].
      rewrite <- Zle_Qle. apply round_half_even_ge_Z.
      apply Qle_shift_div_l; [exact P|]. rewrite <- Pz, <- D. exact Ly.
Qed.

Lemma raw64_mono (x y : Q) : x <= y -> raw64 x <= raw64 y.
Proof.
  intros L. destruct (Qlt_le_dec 0 x) as [Px|Nx].
  - now apply raw64_mono_pos.
  - destruct (Qlt_le_dec y 0) as [Ny|Py].
    + assert (H : raw64 (- y) <= raw64 (- x))
        by (apply raw64_mono_pos; lra).
      rewrite !raw64_opp in H. lra.
    + pose proof (raw64_nonpos x Nx). pose proof (raw64_nonneg y Py). lra.
Qed.

Lemma Qltb_true (x y : Q) : Qltb x y = true -> x < y.
Proof.
  unfold Qltb. intros H. apply negb_true_iff in H.
  destruct (Qlt_le_dec x y) as [L|L]; [exact L|].
  apply Qle_bool_iff in L. congruence.
Qed.

Lemma Qltb_false (x y : Q) : Qltb x y = false -> y <= x.
Proof.
  unfold Qltb. intros H. apply negb_false_iff in H.
  now apply Qle_bool_iff.
Qed.

Lemma Qltb_lt (x y : Q) : x < y -> Qltb x y = true.
Proof.
  intros L. destruct (Qltb x y) eqn:E; [reflexivity|].
  apply Qltb_false in E. lra.
Qed.

Lemma Qltb_ge (x y : Q) : y <= x -> Qltb x y = false.
Proof.
  intros L. destruct (Qltb x y) eqn:E; [|reflexivity].
  apply Qltb_true in E. lra.
Qed.

Lemma Qltb_comp (a a' b b' : Q) : a == a' -> b == b' -> Qltb a b = Qltb a' b'.
Proof.
  intros Ea Eb. destruct (Qltb a' b') eqn:E.
  - apply Qltb_true in E. apply Qltb_lt. lra.
  - apply Qltb_false in E. apply Qltb_ge. lra.
Qed.

Lemma Qeq_bool_false (x y : Q) : Qeq_bool x y = false -> ~ x == y.
Proof. intros H E. apply Qeq_bool_iff in E. congruence. Qed.

Lemma Qeq_bool_true (x y : Q) : x == y -> Qeq_bool x y = true.
Proof. apply Qeq_bool_iff. Qed.

Lemma Qeq_bool_neq' (x y : Q) : ~ x == y -> Qeq_bool x y = false.
Proof.
  intros N. destruct (Qeq_bool x y) eqn:E; [|reflexivity].
  apply Qeq_bool_iff in E. contradiction.
Qed.

(** [round64] is [raw64] with the overflow test. *)
Lemma round64_spec (q : Q) :
  (Qabs (raw64 q) < 2 ^ 1024 /\ round64 q = Fin (Qred (raw64 q))) \/
  (2 ^ 1024 <= Qabs (raw64 q) /\ round64 q = Inf (Qltb q 0)).
Proof.
  pose proof (pow2_pos 1024) as T.
  unfold round64. remember (2 ^ 1024) as top eqn:Etop.
  destruct (Qeq_bool q 0) eqn:Z.
  - left. apply Qeq_bool_iff in Z. pose proof (raw64_zero q Z) as R.
    split.
    + rewrite R. exact T.
    + rewrite (Qred_complete _ _ R). reflexivity.
  - cbv zeta. fold (raw64 q).
    assert (A : Qabs (Qred (raw64 q)) == Qabs (raw64 q))
      by (rewrite Qred_correct; reflexivity).
    destruct (Qle_bool top (Qabs (Qred (raw64 q)))) eqn:O.
    + right. apply Qle_bool_iff in O. split; [lra | reflexivity].
    + left. split; [|reflexivity].
      destruct (Qlt_le_dec (Qabs (raw64 q)) top) as [L|L]; [exact L|].
      assert (C : top <= Qabs (Qred (raw64 q))) by lra.
      apply Qle_bool_iff in C. congruence.
Qed.

Lemma round64_not_nan (q : Q) : round64 q <> NaN.
Proof.
  destruct (round64_spec q) as [[_ E]|[_ E]]; rewrite E; discriminate.
Qed.

Lemma round64_fin (q r : Q) :
  round64 q = Fin r ->
  r = Qred (raw64 q) /\ r == raw64 q /\ Qabs (raw64 q) < 2 ^ 1024.
Proof.
  intros H. destruct (round64_spec q) as [[B E]|[_ E]]; rewrite E in H.
  - assert (R : r = Qred (raw64 q)) by congruence.
    split; [exact R|]. split; [|exact B].
    rewrite R. exact (Qred_correct (raw64 q)).
  - discriminate H.
Qed.

Lemma round64_inf (q : Q) (s : bool) :
  round64 q = Inf s -> s = Qltb q 0 /\ 2 ^ 1024 <= Qabs (raw64 q).
Proof.
  intros H. destruct (round64_spec q) as [[B E]|[B E]]; rewrite E in H.
  - discriminate H.
  - split; [congruence | exact B].
Qed.

Lemma round64_zero (q : Q) : q == 0 -> round64 q = Fin 0.
Proof.
  intros Z. unfold round64. now rewrite (Qeq_bool_true _ _ Z).
Qed.

Lemma round64_comp (x y : Q) : x == y -> round64 x = round64 y.
Proof.
  intros E. pose proof (raw64_comp x y E) as R.
  assert (A : Qabs (raw64 x) == Qabs (raw64 y)) by (rewrite R; reflexivity).
  destruct (round64_spec x) as [[Bx Ex]|[Bx Ex]];
    destruct (round64_spec y) as [[By Ey]|[By Ey]]; rewrite Ex, Ey.
  - now rewrite (Qred_complete _ _ R).
  - lra.
  - lra.
  - now rewrite (Qltb_comp x y 0 0 E (Qeq_refl 0)).
Qed.

Lemma round64_mono (x y : Q) : x <= y -> fle (round64 x) (round64 y).
Proof.
  intros L. pose proof (raw64_mono x y L) as M.
  pose proof (pow2_pos 1024) as T.
  destruct (round64_spec x) as [[Bx Ex]|[Bx Ex]];
    destruct (round64_spec y) as [[By Ey]|[By Ey]]; rewrite Ex, Ey;
    remember (2 ^ 1024) as top eqn:Etop; clear Etop.
  - unfold fle. pose proof (Qred_correct (raw64 x)).
    pose proof (Qred_correct (raw64 y)). lra.
  - destruct (Qltb y 0) eqn:Sy; cbn; [|exact I].
    apply Qltb_true in Sy.
    assert (raw64 y <= 0) by (apply raw64_nonpos; lra).
    rewrite Qabs_neg in By by assumption.
    apply Qabs_Qlt_condition in Bx. lra.
  - destruct (Qltb x 0) eqn:Sx; cbn; [exact I|].
    apply Qltb_false in Sx.
    assert (0 <= raw64 x) by (now apply raw64_nonneg).
    rewrite Qabs_pos in Bx by assumption.
    apply Qabs_Qlt_condition in By. lra.
  - destruct (Qltb x 0) eqn:Sx; destruct (Qltb y 0) eqn:Sy; cbn;
      try exact I.
    apply Qltb_false in Sx. apply Qltb_true in Sy. lra.
Qed.

Lemma round64_nonneg (q r : Q) : 0 <= q -> round64 q = Fin r -> 0 <= r.
Proof.
  intros P H. apply round64_fin in H as (_ & E & _).
  rewrite E. now apply raw64_nonneg.
Qed.

Lemma round64_nonpos (q r : Q) : q <= 0 -> round64 q = Fin r -> r <= 0.
Proof.
  intros P H. apply round64_fin in H as (_ & E & _).
  rewrite E. now apply raw64_nonpos.
Qed.

Lemma round64_exact (q : Q) (m k : Z) :
  (-1074 <= k)%Z -> Qabs q < 2 ^ (k + 53) -> Qabs q < 2 ^ 1024 ->
  q == inject_Z m * 2 ^ k ->
  round64 q = Fin (Qred q).
Proof.
  intros Hk B T E. pose proof (raw64_exact q m k Hk B E) as R.
  destruct (round64_spec q) as [[_ H]|[O _]].
  - rewrite H. now rewrite (Qred_complete _ _ R).
  - rewrite R in O. lra.
Qed.

Lemma Qred_inject_Z (z : Z) : Qred (inject_Z z) = inject_Z z.
Proof.
  apply Qcanon.Qred_identity. cbn. apply Z.gcd_1_r.
Qed.

(** Integers up to [2 ^ 53] in magnitude are floats. *)
Lemma round64_Z (z : Z) :
  (Z.abs z <= 2 ^ 53)%Z -> round64 (inject_Z z) = Fin (inject_Z z).
Proof.
  intros B. rewrite <- (Qred_inject_Z z) at 2.
  assert (A : Qabs (inject_Z z) == inject_Z (Z.abs z)) by reflexivity.
  assert (T : Qabs (inject_Z z) <= 2 ^ 53).
  { rewrite A, (pow2_Z 53) by lia. now rewrite <- Zle_Qle. }
  assert (T' : Qabs (inject_Z z) < 2 ^ 1024).
  { apply Qle_lt_trans with (2 ^ 53); [exact T | apply pow2_lt; lia]. }
  destruct (Z.eq_dec (Z.abs z) (2 ^ 53)) as [Eq|Ne].
  - apply (round64_exact _ (Z.sgn z * 2 ^ 52) 1); [lia | | exact T' |].
    + apply Qle_lt_trans with (2 ^ 53); [exact T | apply pow2_lt; lia].
    + change (2 ^ 1) with (inject_Z 2). rewrite <- inject_Z_mult.
      apply inject_Z_injective. lia.
  - apply (round64_exact _ z 0); [lia | | exact T' |].
    + change (0 + 53)%Z with 53%Z. rewrite A, (pow2_Z 53) by lia.
      rewrite <- Zlt_Qlt. lia.
    + change (2 ^ 0) with 1. ring.
Qed.

Ltac bind_inv H :=
  repeat match type of H with
         | bind ?m _ = Ok _ =>
             let E := fresh "E" in
             destruct m eqn:E; cbn [bind] in H; [|discriminate H]
         | match ?p with pair _ _ => _ end = Ok _ => destruct p
         end.

Lemma Ok_pair_inj (a b c d : Z) : Ok (a, b) = Ok (c, d) -> a = c /\ b = d.
Proof. intros H. inversion H. split; reflexivity. Qed.

Lemma Ok_inj {A : Type} (a b : A) : Ok a = Ok b -> a = b.
Proof. intros H. now inversion H. Qed.

(** ** The dtype oracle *)

Lemma lookup_in (name : string) (table : list (string * Numpy.kind))
    (k : Numpy.kind) :
  Numpy.lookup name table = Some k -> In k (map snd table).
Proof.
  induction table as [|[n k'] rest IH]; cbn [Numpy.lookup map snd].
  - discriminate.
  - destruct (String.eqb name n).
    + intros H. left. congruence.
    + intros H. right. now apply IH.
Qed.

(** The kinds of the table. *)
Lemma dtype_kinds (name : string) (k : Numpy.kind) :
  Numpy.dtype name = Some k ->
  In k [Numpy.SignedInt 8; Numpy.SignedInt 16; Numpy.SignedInt 32;
        Numpy.SignedInt 64; Numpy.UnsignedInt 8; Numpy.UnsignedInt 16;
        Numpy.UnsignedInt 32; Numpy.UnsignedInt 64; Numpy.Floating 16;
        Numpy.Floating 32; Numpy.Floating 64; Numpy.Complex 64;
        Numpy.Complex 128; Numpy.Boolean; Numpy.Object].
Proof.
  intros H. apply lookup_in in H. cbn in H. cbn.
  repeat (destruct H as [H|H]; [subst k; tauto|]). contradiction.
Qed.

(** C9. For every supported signed integer dtype of bit-width [n],
    [get_range_for_dtype_str] returns exactly the pair
    [(-2^(n-1), 2^(n-1) - 1)]. *)
Theorem range_of_signed (name : string) (n : Z) :
  Numpy.dtype name = Some (Numpy.SignedInt n) ->
  get_range_for_dtype_str name = Ok (- 2 ^ (n - 1), 2 ^ (n - 1) - 1)%Z.
Proof.
  intros H. unfold get_range_for_dtype_str, Numpy.iinfo. rewrite H.
  now rewrite Z.shiftl_1_l.
Qed.

Lemma range_of_signed_witness :
  get_range_for_dtype_str "int16" = Ok (- 2 ^ (16 - 1), 2 ^ (16 - 1) - 1)%Z.
Proof. apply (range_of_signed "int16" 16). reflexivity. Defined.

Lemma range_lookup_proper (dtype : string) (lo hi : Z) :
  get_range_for_dtype_str dtype = Ok (lo, hi) -> (lo <= 0 < hi)%Z.
Proof.
  unfold get_range_for_dtype_str, Numpy.iinfo, Numpy.finfo.
  destruct (Numpy.dtype dtype) as [k|] eqn:K; [|discriminate].
  apply dtype_kinds in K. cbn [In] in K.
  repeat (destruct K as [K|K];
          [subst k; cbv iota beta; intros H; try discriminate H;
           apply Ok_pair_inj in H; destruct H as [E1 E2];
           rewrite <- E1, <- E2; vm_compute;
           (split; [discriminate | reflexivity])|]).
  contradiction.
Qed.

(** Every range the oracle returns is proper and holds zero. *)
Theorem range_contains_zero (dtype : string) (lo hi : Z) :
  get_range_for_dtype_str dtype = Ok (lo, hi) -> (lo <= 0 < hi)%Z.
Proof. exact (range_lookup_proper dtype lo hi). Qed.

Lemma range_contains_zero_witness : (-32768 <= 0 < 32767)%Z.
Proof. apply (range_contains_zero "int16"). reflexivity. Defined.

(** A range that comes from [np.iinfo] is that of an integer dtype of at
    most 64 bits. *)
Lemma iinfo_bounds (dtype : string) (lo hi : Z) :
  Numpy.iinfo dtype = Ok (lo, hi) ->
  get_range_for_dtype_str dtype = Ok (lo, hi) /\
  Numpy.from_finfo dtype = false /\
  (- 2 ^ 63 <= lo <= 0 /\ 0 < hi <= 2 ^ 64 - 1)%Z.
Proof.
  unfold get_range_for_dtype_str, Numpy.from_finfo, Numpy.iinfo.
  destruct (Numpy.dtype dtype) as [k|] eqn:K; [|discriminate].
  apply dtype_kinds in K. cbn [In] in K.
  repeat (destruct K as [K|K];
          [subst k; cbv iota beta; intros H;
           first
             [ discriminate H
             | split; [exact H|]; split; [reflexivity|];
               apply Ok_pair_inj in H; destruct H as [E1 E2];
               rewrite <- E1, <- E2; vm_compute;
               repeat split; first [discriminate | reflexivity] ]|]).
  contradiction.
Qed.

(** ** Activations *)

(** C3, as the code has it.  For an activation kind other than NONE, RELU,
    RELU6 and RELU_N1_TO_1, [make_qnn_relu] raises nothing of its own: it
    falls off its end and returns [None], unless the lookup of the dtype
    range has already raised. *)
Theorem unknown_activation_returns_none {E : Type} (expr : E)
    (fused_activation_fn : string) (scale : npfloat) (zero_point : Z)
    (dtype : string) :
  fused_activation_fn <> "NONE"%string ->
  fused_activation_fn <> "RELU"%string ->
  fused_activation_fn <> "RELU6"%string ->
  fused_activation_fn <> "RELU_N1_TO_1"%string ->
  make_qnn_relu expr fused_activation_fn scale zero_point dtype =
    match get_range_for_dtype_str dtype with
    | Ok _ => Ok PyNone
    | Raise e => Raise e
    end.
Proof.
  intros H0 H1 H6 HN. unfold make_qnn_relu.
  destruct (get_range_for_dtype_str dtype) as [[qmin qmax]|e];
    cbn [bind]; [|reflexivity].
  apply String.eqb_neq in H0, H1, H6, HN.
  now rewrite H0, H6, HN, H1.
Qed.

Lemma unknown_activation_returns_none_witness :
  make_qnn_relu tt "TANH" (literal 1) 0 "int8" =
    match get_range_for_dtype_str "int8" with
    | Ok _ => Ok PyNone
    | Raise e => Raise e
    end.
Proof.
  apply (unknown_activation_returns_none tt "TANH" (literal 1) 0 "int8");
    discriminate.
Defined.

(** C3 as stated fails: an unknown activation kind gives a normal return
    of [None], not an exception. *)
Lemma unknown_activation_is_not_an_error :
  make_qnn_relu tt "TANH" (literal 1) 0 "int8" = Ok PyNone /\
  (forall e, make_qnn_relu tt "TANH" (literal 1) 0 "int8" <> Raise e).
Proof.
  split; [reflexivity|]. intros e H. vm_compute in H. discriminate H.
Qed.

Lemma py_max2_ge (a b : Q) : a <= py_max2 a b /\ b <= py_max2 a b.
Proof.
  unfold py_max2. destruct (Qltb a b) eqn:C.
  - apply Qltb_true in C. lra.
  - apply Qltb_false in C. lra.
Qed.

Lemma py_min2_le (a b : Q) : py_min2 a b <= a /\ py_min2 a b <= b.
Proof.
  unfold py_min2. destruct (Qltb b a) eqn:C.
  - apply Qltb_true in C. lra.
  - apply Qltb_false in C. lra.
Qed.

(** Whatever the scale and the zero point, a clip that is returned is a
    clip of the given expression whose lower bound is not below the range
    of the dtype and whose upper bound is not above it. *)
Theorem clip_bounds_within_dtype {E : Type} (expr e : E)
    (fused_activation_fn : string) (scale : npfloat) (zero_point : Z)
    (dtype : string) (a_min a_max : Q) :
  make_qnn_relu expr fused_activation_fn scale zero_point dtype
  = Ok (Clip e a_min a_max) ->
  exists qmin qmax,
    get_range_for_dtype_str dtype = Ok (qmin, qmax) /\
    e = expr /\ inject_Z qmin <= a_min /\ a_max <= inject_Z qmax.
Proof.
  unfold make_qnn_relu. intros H.
  destruct (get_range_for_dtype_str dtype) as [[qmin qmax]|e0];
    cbn [bind] in H; [|discriminate H].
  exists qmin, qmax. split; [reflexivity|].
  destruct (String.eqb fused_activation_fn "NONE"); [discriminate H|].
  destruct (String.eqb fused_activation_fn "RELU6").
  { bind_inv H. inversion H; subst.
    repeat split; [apply py_max2_ge | apply py_min2_le]. }
  destruct (String.eqb fused_activation_fn "RELU_N1_TO_1").
  { bind_inv H. inversion H; subst.
    repeat split; [apply py_max2_ge | apply py_min2_le]. }
  destruct (String.eqb fused_activation_fn "RELU"); [|discriminate H].
  bind_inv H. inversion H; subst.
  repeat split; [apply py_max2_ge | apply Qle_refl].
Qed.

Lemma clip_bounds_within_dtype_witness :
  exists qmin qmax,
    get_range_for_dtype_str "int8" = Ok (qmin, qmax) /\
    tt = tt /\ inject_Z qmin <= 300 /\ 127 <= inject_Z qmax.
Proof.
  apply (clip_bounds_within_dtype tt tt "RELU" (literal (1 # 10)) 300 "int8"
           300 127).
  vm_compute. reflexivity.
Defined.

(** The quantizer is evaluated only by the clipping activations: with a
    zero scale NONE still returns the expression, while RELU, RELU6 and
    RELU_N1_TO_1 raise. *)
Theorem zero_scale_activations {E : Type} (expr : E) (scale : Q)
    (zero_point : Z) (dtype : string) (qmin qmax : Z) :
  scale == 0 ->
  get_range_for_dtype_str dtype = Ok (qmin, qmax) ->
  make_qnn_relu expr "NONE" (Fin scale) zero_point dtype = Ok (Same expr) /\
  (exists e, make_qnn_relu expr "RELU" (Fin scale) zero_point dtype = Raise e) /\
  (exists e,
      make_qnn_relu expr "RELU6" (Fin scale) zero_point dtype = Raise e) /\
  (exists e,
      make_qnn_relu expr "RELU_N1_TO_1" (Fin scale) zero_point dtype
      = Raise e).
Proof.
  intros Z Hr. unfold make_qnn_relu. rewrite Hr. cbn [bind].
  cbn [String.eqb Ascii.eqb Bool.eqb].
  apply Qeq_bool_iff in Z.
  unfold quantize, np_div. rewrite Z.
  repeat split; eexists; reflexivity.
Qed.

Lemma zero_scale_activations_witness :
  make_qnn_relu tt "NONE" (Fin (0 # 5)) 3 "uint8" = Ok (Same tt) /\
  (exists e, make_qnn_relu tt "RELU" (Fin (0 # 5)) 3 "uint8" = Raise e) /\
  (exists e, make_qnn_relu tt "RELU6" (Fin (0 # 5)) 3 "uint8" = Raise e) /\
  (exists e,
      make_qnn_relu tt "RELU_N1_TO_1" (Fin (0 # 5)) 3 "uint8" = Raise e).
Proof.
  apply (zero_scale_activations tt (0 # 5) 3 "uint8" 0 255); reflexivity.
Defined.

(** ** The end-to-end example *)

(** C8. The call with input scale 0.5, weight scale [0.1], both zero
    points 0, weight shape [1, 3, 3, 4] and int8 throughout returns a
    finite, strictly positive scale and a zero point within [-128, 127]. *)
Theorem end_to_end_example :
  exists (s : Q) (zp : Z),
    get_conv2d_qnn_params [1; 3; 3; 4]%Z (literal (1 # 2)) 0
      (PerChannel [literal (1 # 10)]) 0 "int8" "int8" "int8" false
    = Ok (Fin s, zp) /\
    0 < s /\ (-128 <= zp <= 127)%Z.
Proof.
  exists (8106479329266893 # 35184372088832), 0%Z.
  split; [vm_compute; reflexivity|]. split; [reflexivity | lia].
Qed.

(** ** SAME padding *)

Lemma half_split (pad : Z) :
  (0 <= pad)%Z ->
  (0 <= pad / 2 /\ pad / 2 <= pad - pad / 2 /\ pad - pad / 2 <= pad / 2 + 1)%Z.
Proof.
  intros H. pose proof (Z.div_mod pad 2). pose proof (Z.mod_pos_bound pad 2).
  lia.
Qed.

(** Whatever the arguments, a padding that is returned has four entries,
    none negative, and an odd total puts its extra row at the bottom and
    its extra column on the right. *)
Theorem same_padding_shape (in_shape kernel dilation stride p : list Z) :
  get_same_padding in_shape kernel dilation stride = Ok p ->
  exists t l b r,
    p = [t; l; b; r] /\
    (0 <= t /\ t <= b /\ b <= t + 1)%Z /\ (0 <= l /\ l <= r /\ r <= l + 1)%Z.
Proof.
  unfold get_same_padding. intros H. bind_inv H. inversion H; subst p.
  do 4 eexists. split; [reflexivity|].
  split; apply half_split, Z.le_max_l.
Qed.

Lemma same_padding_shape_witness :
  exists t l b r,
    [1; 0; 2; 1]%Z = [t; l; b; r] /\
    (0 <= t /\ t <= b /\ b <= t + 1)%Z /\ (0 <= l /\ l <= r /\ r <= l + 1)%Z.
Proof.
  apply (same_padding_shape [5; 6]%Z [4; 2]%Z [1; 1]%Z [1; 1]%Z).
  vm_compute. reflexivity.
Defined.

(** ** Conversions of integers to floats *)

Lemma py_float_raise (z : Z) (e : exn) :
  py_float z = Raise e -> e = OverflowError.
Proof.
  unfold py_float. destruct (round64 (inject_Z z)); congruence.
Qed.

Lemma py_float_ok (z : Z) (q : Q) :
  py_float z = Ok q -> round64 (inject_Z z) = Fin q.
Proof.
  unfold py_float. destruct (round64 (inject_Z z)); congruence.
Qed.

Lemma py_float_exact (z : Z) :
  (Z.abs z <= 2 ^ 53)%Z -> py_float z = Ok (inject_Z z).
Proof.
  intros B. unfold py_float. now rewrite (round64_Z z B).
Qed.

Lemma py_float_mono (a b : Z) (x y : Q) :
  (a <= b)%Z -> py_float a = Ok x -> py_float b = Ok y -> x <= y.
Proof.
  intros L Ha Hb. apply py_float_ok in Ha, Hb.
  assert (M : fle (round64 (inject_Z a)) (round64 (inject_Z b))).
  { apply round64_mono. now rewrite <- Zle_Qle. }
  rewrite Ha, Hb in M. exact M.
Qed.

Lemma py_float_nonneg (a : Z) (x : Q) :
  (0 <= a)%Z -> py_float a = Ok x -> 0 <= x.
Proof.
  intros L H. apply (py_float_mono 0 a 0 x L); [reflexivity | exact H].
Qed.

Lemma py_float_nonpos (a : Z) (x : Q) :
  (a <= 0)%Z -> py_float a = Ok x -> x <= 0.
Proof.
  intros L H. apply (py_float_mono a 0 x 0 L); [exact H | reflexivity].
Qed.

(** ** Depthwise convolutions *)

Lemma npfloat_eq_refl (x : npfloat) : npfloat_eq x x.
Proof. destruct x; cbn; [apply Qeq_refl | reflexivity | exact I]. Qed.

Lemma same_outcome_refl (r : result (npfloat * Z)) : same_outcome r r.
Proof.
  destruct r as [[s zp]|e]; cbn; [|reflexivity].
  split; [apply npfloat_eq_refl | reflexivity].
Qed.

Lemma depthwise_num_elements (h w c : Z) :
  c <> 0%Z -> py_truediv (h * w * c) c = py_float (h * w * 1).
Proof.
  intros Hc. unfold py_truediv, py_float.
  apply Z.eqb_neq in Hc as Hb. rewrite Hb.
  rewrite (round64_comp (inject_Z (h * w * c) / inject_Z c)
             (inject_Z (h * w * 1))); [reflexivity|].
  rewrite !inject_Z_mult. field.
  intros Z0. apply Hc. apply inject_Z_injective. exact Z0.
Qed.

Lemma depthwise_locals (b h w c : Z) (input_scale : npfloat) (input_zp : Z)
    (weights_scale : scales) (weights_zp : Z)
    (input_dtype weights_dtype output_dtype : string) :
  c <> 0%Z ->
  conv2d_output_limits [b; h; w; c]%Z input_scale input_zp weights_scale
    weights_zp input_dtype weights_dtype output_dtype true =
  conv2d_output_limits [b; h; w; 1]%Z input_scale input_zp weights_scale
    weights_zp input_dtype weights_dtype output_dtype false.
Proof.
  intros Hc. unfold conv2d_output_limits.
  repeat match goal with
         | |- bind ?m _ = bind ?m _ =>
             destruct m as [?|?]; cbn [bind]; [|reflexivity]
         | |- match ?p with pair _ _ => _ end = match ?p with pair _ _ => _ end =>
             destruct p
         end.
  cbn [py_index nth_error bind].
  now rewrite (depthwise_num_elements h w c Hc).
Qed.

(** C5, as the code has it.  For a weight shape [(b, h, w, c)] with
    [c <> 0], the depthwise call ends exactly as the plain call on
    [(b, h, w, 1)] does, all other parameters equal: same output scale and
    zero point, or the same exception. *)
Theorem depthwise_consistency (b h w c : Z) (input_scale : npfloat)
    (input_zp : Z) (weights_scale : scales) (weights_zp : Z)
    (input_dtype weights_dtype output_dtype : string) :
  c <> 0%Z ->
  same_outcome
    (get_conv2d_qnn_params [b; h; w; c]%Z input_scale input_zp weights_scale
       weights_zp input_dtype weights_dtype output_dtype true)
    (get_conv2d_qnn_params [b; h; w; 1]%Z input_scale input_zp weights_scale
       weights_zp input_dtype weights_dtype output_dtype false).
Proof.
  intros Hc. unfold get_conv2d_qnn_params.
  rewrite (depthwise_locals b h w c input_scale input_zp weights_scale
             weights_zp input_dtype weights_dtype output_dtype Hc).
  apply same_outcome_refl.
Qed.

Lemma depthwise_consistency_witness :
  same_outcome
    (get_conv2d_qnn_params [1; 3; 3; 4]%Z (literal (1 # 2)) 0
       (PerChannel [literal (1 # 10)]) 0 "int8" "int8" "int8" true)
    (get_conv2d_qnn_params [1; 3; 3; 1]%Z (literal (1 # 2)) 0
       (PerChannel [literal (1 # 10)]) 0 "int8" "int8" "int8" false).
Proof.
  apply (depthwise_consistency 1 3 3 4 (literal (1 # 2)) 0
           (PerChannel [literal (1 # 10)]) 0 "int8" "int8" "int8").
  discriminate.
Defined.

(** C5 as stated fails on a shape with no channel: the depthwise call
    divides by [channels = 0] and raises [ZeroDivisionError], the plain
    call on [(b, h, w, 1)] returns. *)
Lemma depthwise_zero_channels :
  get_conv2d_qnn_params [1; 3; 3; 0]%Z (literal (1 # 2)) 0
    (PerChannel [literal (1 # 10)]) 0 "int8" "int8" "int8" true
  = Raise ZeroDivisionError /\
  (exists (s : Q) (zp : Z),
      get_conv2d_qnn_params [1; 3; 3; 1]%Z (literal (1 # 2)) 0
        (PerChannel [literal (1 # 10)]) 0 "int8" "int8" "int8" false
      = Ok (Fin s, zp)) /\
  ~ same_outcome
      (get_conv2d_qnn_params [1; 3; 3; 0]%Z (literal (1 # 2)) 0
         (PerChannel [literal (1 # 10)]) 0 "int8" "int8" "int8" true)
      (get_conv2d_qnn_params [1; 3; 3; 1]%Z (literal (1 # 2)) 0
         (PerChannel [literal (1 # 10)]) 0 "int8" "int8" "int8" false).
Proof.
  split; [vm_compute; reflexivity|]. split.
  - do 2 eexists. vm_compute. reflexivity.
  - intros H. vm_compute in H. exact H.
Qed.

(** ** Degenerate ranges *)

Lemma degenerate_scale (M m width : npfloat) :
  feq M m ->
  np_div (fsub M m) width = Fin 0 \/ np_div (fsub M m) width = NaN.
Proof.
  destruct M as [a|s|], m as [b|t|]; cbn [feq]; try contradiction.
  - intros E. unfold fsub.
    rewrite (round64_zero (a - b)) by lra.
    destruct width as [w|u|]; cbn [np_div].
    + destruct (Qeq_bool w 0) eqn:W.
      * right. reflexivity.
      * left. apply round64_zero. unfold Qdiv. ring.
    + left. reflexivity.
    + right. reflexivity.
  - intros ->. right. cbn [fsub]. rewrite Bool.eqb_reflx. reflexivity.
Qed.

Lemma int_of_degenerate (lo : Q) (m scale : npfloat) :
  m <> NaN -> scale = Fin 0 \/ scale = NaN ->
  py_int (fsub (Fin lo) (np_div m scale)) = Raise ValueError \/
  py_int (fsub (Fin lo) (np_div m scale)) = Raise OverflowError.
Proof.
  intros Hm [-> | ->].
  - destruct m as [b|t|]; [| |contradiction].
    + cbn [np_div]. change (Qeq_bool 0 0) with true. cbv iota.
      destruct (Qeq_bool b 0); [left | right]; reflexivity.
    + right. reflexivity.
  - left. destruct m as [b|t|]; reflexivity.
Qed.

(** C2, as the code has it.  Once the lookups have succeeded, a call with
    [output_max == output_min] does not return: [output_scale] is zero or
    NaN, the quotient [output_min / output_scale] is NaN or an infinity,
    and [int()] raises [ValueError] or [OverflowError] (which a failed
    conversion of the output dtype's range raises too). *)
Theorem degenerate_range_raises
    (weight_shape : list Z) (input_scale : npfloat) (input_zp : Z)
    (weights_scale : scales) (weights_zp : Z)
    (input_dtype weights_dtype output_dtype : string) (is_depthwise : bool)
    (l : conv2d_locals) :
  conv2d_output_limits weight_shape input_scale input_zp weights_scale
    weights_zp input_dtype weights_dtype output_dtype is_depthwise = Ok l ->
  feq (output_max l) (output_min l) ->
  get_conv2d_qnn_params weight_shape input_scale input_zp weights_scale
    weights_zp input_dtype weights_dtype output_dtype is_depthwise
  = Raise ValueError \/
  get_conv2d_qnn_params weight_shape input_scale input_zp weights_scale
    weights_zp input_dtype weights_dtype output_dtype is_depthwise
  = Raise OverflowError.
Proof.
  intros H D. unfold get_conv2d_qnn_params. rewrite H. cbn [bind].
  unfold output_scale_of, dtype_width.
  assert (Hm : output_min l <> NaN).
  { intros N. rewrite N in D. destruct (output_max l); exact D. }
  destruct (Numpy.from_finfo output_dtype).
  - cbn [bind]. unfold output_zp_float.
    destruct (py_float (output_dtype_min l)) as [lo|e] eqn:L; cbn [bind].
    + destruct (int_of_degenerate lo (output_min l) _ Hm
                  (degenerate_scale _ _ (Inf false) D)) as [R|R];
        rewrite R; [left | right]; reflexivity.
    + right. now rewrite (py_float_raise _ _ L).
  - destruct (py_float (output_dtype_max l - output_dtype_min l))
      as [w|e] eqn:W; cbn [bind].
    + unfold output_zp_float.
      destruct (py_float (output_dtype_min l)) as [lo|e] eqn:L; cbn [bind].
      * destruct (int_of_degenerate lo (output_min l) _ Hm
                    (degenerate_scale _ _ (Fin w) D)) as [R|R];
          rewrite R; [left | right]; reflexivity.
      * right. now rewrite (py_float_raise _ _ L).
    + right. now rewrite (py_float_raise _ _ W).
Qed.

Lemma degenerate_range_raises_witness :
  get_conv2d_qnn_params [1; 3; 3; 4]%Z (literal 0) 0
    (PerChannel [literal (1 # 10)]) 0 "int8" "int8" "int8" false
  = Raise ValueError \/
  get_conv2d_qnn_params [1; 3; 3; 4]%Z (literal 0) 0
    (PerChannel [literal (1 # 10)]) 0 "int8" "int8" "int8" false
  = Raise OverflowError.
Proof.
  apply (degenerate_range_raises [1; 3; 3; 4]%Z (literal 0) 0
           (PerChannel [literal (1 # 10)]) 0 "int8" "int8" "int8" false
           {| output_limits := [Fin 0; Fin 0; Fin 0; Fin 0];
              output_max := Fin 0; output_min := Fin 0;
              output_dtype_min := -128; output_dtype_max := 127 |}).
  - vm_compute. reflexivity.
  - vm_compute. reflexivity.
Defined.

(** C2 as stated fails: with a zero input scale the four limits coincide,
    [output_max == output_min], and the call raises [ValueError] instead of
    returning a non-finite value. *)
Lemma degenerate_call_does_not_return :
  (exists l,
      conv2d_output_limits [1; 3; 3; 4]%Z (literal 0) 0
        (PerChannel [literal (1 # 10)]) 0 "int8" "int8" "int8" false = Ok l /\
      feq (output_max l) (output_min l)) /\
  get_conv2d_qnn_params [1; 3; 3; 4]%Z (literal 0) 0
    (PerChannel [literal (1 # 10)]) 0 "int8" "int8" "int8" false
  = Raise ValueError /\
  (forall r,
      get_conv2d_qnn_params [1; 3; 3; 4]%Z (literal 0) 0
        (PerChannel [literal (1 # 10)]) 0 "int8" "int8" "int8" false
      <> Ok r).
Proof.
  split; [|split].
  - eexists. split; [vm_compute; reflexivity | vm_compute; reflexivity].
  - vm_compute. reflexivity.
  - intros r H. vm_compute in H. discriminate H.
Qed.

(** ** The integer conversions of the two quantizers *)

(** C1, as the code has it.  When the call returns, [output_zp] is the
    float [output_dtype_min - output_min / output_scale], which is then
    finite, truncated toward zero ([int()]); when the quantize helper of
    [make_qnn_relu] returns, it has added the zero point to the float
    [x / scale], which is then finite, rounded to the nearest integer with
    ties to even ([round()]), and converted the sum to a float.  Neither
    site rounds ties away from zero. *)
Theorem conversions_truncate_and_round_half_even
    (weight_shape : list Z) (input_scale : npfloat) (input_zp : Z)
    (weights_scale : scales) (weights_zp : Z)
    (input_dtype weights_dtype output_dtype : string) (is_depthwise : bool)
    (output_scale : npfloat) (output_zp : Z)
    (scale : npfloat) (zero_point : Z) (x r : Q) :
  get_conv2d_qnn_params weight_shape input_scale input_zp weights_scale
    weights_zp input_dtype weights_dtype output_dtype is_depthwise
  = Ok (output_scale, output_zp) ->
  quantize scale zero_point x = Ok r ->
  (exists l v,
      conv2d_output_limits weight_shape input_scale input_zp weights_scale
        weights_zp input_dtype weights_dtype output_dtype is_depthwise = Ok l /\
      output_scale_of output_dtype l = Ok output_scale /\
      output_zp_float l output_scale = Ok (Fin v) /\
      truncation_of v output_zp) /\
  (exists v n,
      np_div (Fin x) scale = Fin v /\
      nearest_even_of v n /\
      py_float (n + zero_point) = Ok r).
Proof.
  intros H Hq. split.
  - unfold get_conv2d_qnn_params in H. bind_inv H.
    destruct a1 as [v|s|]; cbn [py_int] in E2; try discriminate E2.
    apply Ok_inj in E2. inversion H; subst.
    exists a, v. split; [reflexivity|]. split; [exact E0|].
    split; [exact E1 | apply Qtrunc_spec].
  - unfold quantize in Hq. bind_inv Hq.
    destruct (np_div (Fin x) scale) as [v|s|]; cbn [py_round] in E;
      try discriminate E.
    apply Ok_inj in E. subst a.
    exists v, (round_half_even v).
    split; [reflexivity|]. split; [apply round_half_even_spec | exact Hq].
Qed.

Lemma conversions_truncate_and_round_half_even_witness :
  (exists l v,
      conv2d_output_limits [1; 1; 1; 1]%Z (literal 1) (-128)
        (PerChannel [literal 1; literal 2]) 0 "int8" "int8" "int8" false
      = Ok l /\
      output_scale_of "int8" l = Ok (Fin 382) /\
      output_zp_float l (Fin 382) = Ok (Fin v) /\
      truncation_of v (-42)) /\
  (exists v n,
      np_div (Fin 6) (literal 12) = Fin v /\
      nearest_even_of v n /\
      py_float (n + 0) = Ok 0).
Proof.
  apply (conversions_truncate_and_round_half_even [1; 1; 1; 1]%Z (literal 1)
           (-128) (PerChannel [literal 1; literal 2]) 0 "int8" "int8" "int8"
           false (Fin 382) (-42) (literal 12) 0 6 0).
  - vm_compute. reflexivity.
  - vm_compute. reflexivity.
Defined.

(** C1 as stated fails at both sites.  With per-channel weight scales
    [1, 2] and input zero point -128 the float to convert is about -42.55:
    the code returns -42 where rounding to nearest gives -43.  With scale 12
    the quantizer sends 6.0 to [round(0.5) = 0] where ties away from zero
    give 1. *)
Lemma conversions_are_not_half_away :
  (exists l v,
      conv2d_output_limits [1; 1; 1; 1]%Z (literal 1) (-128)
        (PerChannel [literal 1; literal 2]) 0 "int8" "int8" "int8" false
      = Ok l /\
      output_zp_float l (Fin 382) = Ok (Fin v) /\
      get_conv2d_qnn_params [1; 1; 1; 1]%Z (literal 1) (-128)
        (PerChannel [literal 1; literal 2]) 0 "int8" "int8" "int8" false
      = Ok (Fin 382, (-42)%Z) /\
      round_half_away v = (-43)%Z) /\
  np_div (Fin 6) (literal 12) = Fin (1 # 2) /\
  quantize (literal 12) 0 6 = Ok 0 /\
  (round_half_away (1 # 2) + 0 = 1)%Z.
Proof.
  split; [|repeat split; vm_compute; reflexivity].
  do 2 eexists. split; [vm_compute; reflexivity|].
  split; [vm_compute; reflexivity|].
  split; vm_compute; reflexivity.
Qed.

(** ** SAME padding *)

Lemma Qceiling_unique (x : Q) (c : Z) :
  inject_Z c - 1 < x -> x <= inject_Z c -> Qceiling x = c.
Proof.
  intros Lo Hi.
  pose proof (Qle_ceiling x) as U. pose proof (Qceiling_lt x) as L.
  rewrite inject_Z_sub in L. change (inject_Z 1) with 1 in L.
  assert (A : inject_Z (Qceiling x) < inject_Z c + 1) by lra.
  assert (B : inject_Z c < inject_Z (Qceiling x) + 1) by lra.
  rewrite <- inject_Z_succ, <- Zlt_Qlt in A, B. lia.
Qed.

Lemma raw64_of_Z (z : Z) :
  (Z.abs z <= 2 ^ 53)%Z -> raw64 (inject_Z z) == inject_Z z.
Proof.
  intros B. pose proof (round64_Z z B) as R.
  apply round64_fin in R as (_ & E & _). lra.
Qed.

(** The ceiling of a rounded quotient of two integers up to [2 ^ 53] is
    the ceiling of the quotient: rounding does not cross an integer. *)
Lemma ceil_round64_quotient (a b : Z) :
  (0 < a <= 2 ^ 53)%Z -> (0 < b <= 2 ^ 53)%Z ->
  exists r,
    round64 (inject_Z a / inject_Z b) = Fin r /\
    Qceiling r = Qceiling (inject_Z a / inject_Z b).
Proof.
  intros [Ha Ha'] [Hb Hb'].
  set (q := inject_Z a / inject_Z b).
  set (c := Qceiling q).
  assert (PA : 0 < inject_Z a) by (change 0 with (inject_Z 0); now rewrite <- Zlt_Qlt).
  assert (PB : 0 < inject_Z b) by (change 0 with (inject_Z 0); now rewrite <- Zlt_Qlt).
  assert (B1 : 1 <= inject_Z b).
  { change 1 with (inject_Z 1). rewrite <- Zle_Qle. lia. }
  assert (P53 : 2 ^ 53 == inject_Z (2 ^ 53)) by (apply pow2_Z; lia).
  assert (A53 : inject_Z a <= 2 ^ 53) by (rewrite P53, <- Zle_Qle; exact Ha').
  assert (B53 : inject_Z b <= 2 ^ 53) by (rewrite P53, <- Zle_Qle; exact Hb').
  assert (QB : q * inject_Z b == inject_Z a) by (unfold q; field; lra).
  assert (Pq : 0 < q) by (unfold q; apply Qlt_shift_div_l; lra).
  pose proof (Qle_ceiling q) as U. fold c in U.
  pose proof (Qceiling_lt q) as L. fold c in L.
  rewrite inject_Z_sub in L. change (inject_Z 1) with 1 in L.
  (* the quotient is at most [a] *)
  assert (Qa : q <= inject_Z a).
  { unfold q. apply Qle_shift_div_r; [exact PB|].
    remember (inject_Z a) as A. remember (inject_Z b) as B. nra. }
  assert (Cpos : (0 < c)%Z).
  { rewrite Zlt_Qlt. change (inject_Z 0) with 0. lra. }
  assert (C53 : (c <= 2 ^ 53)%Z).
  { assert (X : inject_Z c < inject_Z (2 ^ 53) + 1) by lra.
    rewrite <- inject_Z_succ, <- Zlt_Qlt in X. lia. }
  (* upper bound: the rounded quotient is at most [c] *)
  assert (Up : raw64 q <= inject_Z c).
  { rewrite <- (raw64_of_Z c) by lia. now apply raw64_mono. }
  (* lower bound: the rounded quotient is above [c - 1] *)
  assert (ZL : ((c - 1) * b + 1 <= a)%Z).
  { assert (X : inject_Z ((c - 1) * b) < inject_Z a).
    { rewrite inject_Z_mult, inject_Z_sub. change (inject_Z 1) with 1.
      rewrite <- QB. apply Qmult_lt_compat_r; lra. }
    rewrite <- Zlt_Qlt in X. lia. }
  assert (Gap : inject_Z c - 1 <= q - / inject_Z b).
  { rewrite Zle_Qle, inject_Z_plus, inject_Z_mult, inject_Z_sub in ZL.
    change (inject_Z 1) with 1 in ZL.
    assert (E : q - / inject_Z b == (inject_Z a - 1) / inject_Z b)
      by (unfold q; field; lra).
    rewrite E. apply Qle_shift_div_l; [exact PB | lra]. }
  assert (Lo : inject_Z c - 1 < raw64 q).
  { destruct (ilog2_spec q Pq) as [Lj Uj].
    set (j := ilog2 q) in *.
    destruct (Qle_lt_or_eq _ _ Lj) as [Lt|Eq].
    - (* strictly inside the binade *)
      destruct (raw64_near q) as [N _].
      apply Qlt_le_trans with (q - 2 ^ (ulp_exponent q - 1)); [|exact N].
      assert (Half : 2 ^ (ulp_exponent q - 1) < / inject_Z b).
      { assert (JB : 2 ^ j * inject_Z b < 2 ^ 53).
        { apply Qlt_le_trans with (inject_Z a); [|exact A53].
          rewrite <- QB. apply Qmult_lt_compat_r; [exact PB | exact Lt]. }
        assert (Goal1 : 2 ^ (ulp_exponent q - 1) * inject_Z b < 1).
        { rewrite (ulp_exponent_pos q Pq). fold j.
          destruct (Z.max_spec (j - 52) (-1074)) as [[_ ->]|[_ ->]].
          - change (-1074 - 1)%Z with (-1075)%Z.
            apply Qle_lt_trans with (2 ^ (-1075) * 2 ^ 53).
            + apply Qmult_le_l; [apply pow2_pos | exact B53].
            + rewrite <- pow2_add. change 1 with (2 ^ 0). apply pow2_lt. lia.
          - replace (j - 52 - 1)%Z with (j - 53)%Z by lia.
            rewrite pow2_sub.
            pose proof (pow2_pos 53) as T.
            assert (E : 2 ^ j / 2 ^ 53 * inject_Z b
                        == 2 ^ j * inject_Z b / 2 ^ 53) by (field; lra).
            rewrite E. apply Qlt_shift_div_r; [exact T | lra]. }
        assert (E : / inject_Z b == 1 / inject_Z b) by (field; lra).
        rewrite E. apply Qlt_shift_div_l; [exact PB | exact Goal1]. }
      lra.
    - (* a power of two is kept *)
      assert (J : (-1074 <= j)%Z).
      { assert (X : 2 ^ (-53) < 2 ^ (j + 1)).
        { apply Qle_lt_trans with q; [|exact Uj].
          assert (Y : 2 ^ (-53) == 1 / 2 ^ 53).
          { change (-53)%Z with (0 - 53)%Z. rewrite pow2_sub. reflexivity. }
          rewrite Y. unfold q.
          pose proof (pow2_pos 53) as T.
          apply Qle_shift_div_r; [exact T|].
          assert (E : inject_Z a / inject_Z b * 2 ^ 53
                      == inject_Z a * (2 ^ 53 / inject_Z b)) by (field; lra).
          rewrite E.
          assert (One : 1 <= 2 ^ 53 / inject_Z b)
            by (apply Qle_shift_div_l; lra).
          assert (A1 : 1 <= inject_Z a).
          { change 1 with (inject_Z 1). rewrite <- Zle_Qle. lia. }
          remember (2 ^ 53 / inject_Z b) as t. remember (inject_Z a) as A.
          nra. }
        apply pow2_lt_inv in X. lia. }
      assert (R : raw64 q == q).
      { apply (raw64_exact q 1 j J).
        - rewrite Qabs_pos by lra.
          apply Qlt_le_trans with (2 ^ (j + 1)); [exact Uj|].
          apply pow2_le. lia.
        - rewrite <- Eq. change (inject_Z 1) with 1. ring. }
      lra. }
  (* no overflow *)
  assert (T : Qabs (raw64 q) < 2 ^ 1024).
  { assert (0 <= raw64 q) by (apply raw64_nonneg; lra).
    rewrite Qabs_pos by assumption.
    apply Qle_lt_trans with (2 ^ 53).
    - apply Qle_trans with (inject_Z c); [exact Up|].
      rewrite P53, <- Zle_Qle. exact C53.
    - apply pow2_lt. lia. }
  exists (Qred (raw64 q)). split.
  - destruct (round64_spec q) as [[_ E]|[O _]]; [exact E | lra].
  - apply Qceiling_unique; rewrite Qred_correct; [exact Lo | exact Up].
Qed.

Lemma ceil_div_exact (a b : Z) :
  (0 < a <= 2 ^ 53)%Z -> (0 < b <= 2 ^ 53)%Z ->
  ceil_div a b = Ok (Qceiling (inject_Z a / inject_Z b)).
Proof.
  intros Ha Hb. unfold ceil_div.
  rewrite (py_float_exact a) by lia. cbn [bind].
  rewrite (py_float_exact b) by lia. cbn [bind].
  unfold float_truediv.
  rewrite Qeq_bool_neq'.
  2:{ intros Z0. assert (b = 0)%Z by (apply inject_Z_injective; exact Z0).
      lia. }
  cbn [bind].
  destruct (ceil_round64_quotient a b Ha Hb) as (r & R & C).
  rewrite R. cbn [math_ceil]. now rewrite C.
Qed.

(** C6, as the code has it.  For positive kernels and dilations, and
    positive sizes and strides that [float()] keeps (none above [2^53]),
    [get_same_padding] computes on each axis the effective kernel
    [dilation * (kernel - 1) + 1], the output size [ceil(input / stride)],
    the total padding [max(0, (out - 1) * stride + effective_kernel - input)],
    its floor half before and the rest after; the height axis fills top and
    bottom, the width axis left and right.  Input 7, kernel 3, dilation 1,
    stride 2 on both axes gives [(1, 1, 1, 1)]. *)
Theorem same_padding_formula (h w kh kw dh dw sh sw : Z) :
  (0 < h <= 2 ^ 53)%Z -> (0 < w <= 2 ^ 53)%Z ->
  (0 < kh)%Z -> (0 < kw)%Z -> (0 < dh)%Z -> (0 < dw)%Z ->
  (0 < sh <= 2 ^ 53)%Z -> (0 < sw <= 2 ^ 53)%Z ->
  get_same_padding [h; w]%Z [kh; kw]%Z [dh; dw]%Z [sh; sw]%Z =
    Ok [ fst (spec_pad_axis h kh dh sh); fst (spec_pad_axis w kw dw sw);
         snd (spec_pad_axis h kh dh sh); snd (spec_pad_axis w kw dw sw) ]
  /\ get_same_padding [7; 7]%Z [3; 3]%Z [1; 1]%Z [2; 2]%Z
     = Ok [1; 1; 1; 1]%Z.
Proof.
  intros Hh Hw _ _ _ _ Hsh Hsw. split; [|vm_compute; reflexivity].
  pose proof (ceil_div_exact h sh Hh Hsh) as Ch.
  pose proof (ceil_div_exact w sw Hw Hsw) as Cw.
  unfold ceil_div in Ch, Cw.
  unfold get_same_padding. cbn [py_index nth_error bind].
  destruct (py_float h) as [fh|] eqn:Fh; cbn [bind] in Ch |- *;
    [|discriminate Ch].
  destruct (py_float sh) as [fsh|] eqn:Fsh; cbn [bind] in Ch |- *;
    [|discriminate Ch].
  destruct (float_truediv fh fsh) as [qh|]; cbn [bind] in Ch |- *;
    [|discriminate Ch].
  rewrite Ch. cbn [bind].
  destruct (py_float w) as [fw|] eqn:Fw; cbn [bind] in Cw |- *;
    [|discriminate Cw].
  destruct (py_float sw) as [fsw|] eqn:Fsw; cbn [bind] in Cw |- *;
    [|discriminate Cw].
  destruct (float_truediv fw fsw) as [qw|]; cbn [bind] in Cw |- *;
    [|discriminate Cw].
  rewrite Cw. cbn [bind].
  reflexivity.
Qed.

Lemma same_padding_formula_witness :
  get_same_padding [8; 5]%Z [3; 2]%Z [1; 2]%Z [1; 3]%Z =
    Ok [ fst (spec_pad_axis 8 3 1 1); fst (spec_pad_axis 5 2 2 3);
         snd (spec_pad_axis 8 3 1 1); snd (spec_pad_axis 5 2 2 3) ]
  /\ get_same_padding [7; 7]%Z [3; 3]%Z [1; 1]%Z [2; 2]%Z
     = Ok [1; 1; 1; 1]%Z.
Proof. apply (same_padding_formula 8 5 3 2 1 2 1 3); lia. Defined.

(** C6 as stated fails on a size that [float()] does not keep: for
    [2^53 + 1], kernel 3, dilation 1 and stride 1 the code pads
    [(0, 0, 1, 1)] where the formula gives [(1, 1, 1, 1)]. *)
Lemma same_padding_large_input :
  get_same_padding [2 ^ 53 + 1; 2 ^ 53 + 1]%Z [3; 3]%Z [1; 1]%Z [1; 1]%Z
  = Ok [0; 0; 1; 1]%Z /\
  spec_pad_axis (2 ^ 53 + 1) 3 1 1 = (1, 1)%Z.
Proof. split; vm_compute; reflexivity. Qed.

(** ** The RELU6 clip *)

Lemma positive_scale (scale : npfloat) :
  flt (Fin 0) scale = true ->
  (exists s, scale = Fin s /\ 0 < s) \/ scale = Inf false.
Proof.
  destruct scale as [s|t|]; cbn [flt]; intros H.
  - left. exists s. split; [reflexivity | now apply Qltb_true].
  - right. destruct t; [discriminate H | reflexivity].
  - discriminate H.
Qed.

Lemma quantize_zero (scale : npfloat) (zero_point : Z) :
  flt (Fin 0) scale = true ->
  quantize scale zero_point 0 = py_float zero_point.
Proof.
  intros H. unfold quantize.
  destruct (positive_scale scale H) as [(s & -> & Ps) | ->].
  - cbn [np_div]. rewrite Qeq_bool_neq' by lra.
    rewrite (round64_zero (0 / s)) by (unfold Qdiv; ring).
    reflexivity.
  - reflexivity.
Qed.

(** For a non-negative [x], [quantize] rounds a non-negative float, and
    it raises nothing but [OverflowError]. *)
Lemma quantize_nonneg (scale : npfloat) (zero_point : Z) (x : Q) :
  flt (Fin 0) scale = true -> 0 <= x ->
  (exists n, (0 <= n)%Z /\
             quantize scale zero_point x = py_float (n + zero_point)) \/
  quantize scale zero_point x = Raise OverflowError.
Proof.
  intros H Hx. unfold quantize.
  destruct (positive_scale scale H) as [(s & -> & Ps) | ->].
  - cbn [np_div]. rewrite Qeq_bool_neq' by lra.
    assert (Pq : 0 <= x / s) by (apply Qle_shift_div_l; lra).
    destruct (round64 (x / s)) as [v|t|] eqn:R.
    + left. exists (round_half_even v). split; [|reflexivity].
      apply round_half_even_ge_Z. change (inject_Z 0) with 0.
      exact (round64_nonneg _ _ Pq R).
    + right. reflexivity.
    + exfalso. exact (round64_not_nan _ R).
  - left. exists 0%Z. split; [lia | reflexivity].
Qed.

(** C7, as the code has it.  For a positive output scale and a zero point
    that, as the float [quantize] makes of it, lies inside the range of
    the output dtype, the RELU6 call returns whenever [quantize(6.0)]
    does, with clip bounds [dtype_min <= a_min <= a_max <= dtype_max];
    otherwise [quantize(6.0)] has overflowed and the call raises
    [OverflowError]. *)
Theorem relu6_bounds_ordered {E : Type} (expr : E) (scale : npfloat)
    (zero_point : Z) (dtype : string) (qmin qmax : Z) (z : Q) :
  flt (Fin 0) scale = true ->
  get_range_for_dtype_str dtype = Ok (qmin, qmax) ->
  py_float zero_point = Ok z ->
  inject_Z qmin <= z /\ z <= inject_Z qmax ->
  (forall q6, quantize scale zero_point 6 = Ok q6 ->
     exists a_min a_max,
       make_qnn_relu expr "RELU6" scale zero_point dtype
       = Ok (Clip expr a_min a_max) /\
       inject_Z qmin <= a_min /\ a_min <= a_max /\ a_max <= inject_Z qmax) /\
  (forall e, quantize scale zero_point 6 = Raise e ->
     e = OverflowError /\
     make_qnn_relu expr "RELU6" scale zero_point dtype
     = Raise OverflowError).
Proof.
  intros Hs Hr Hz [Zlo Zhi].
  unfold make_qnn_relu. rewrite Hr. cbn [bind].
  cbn [String.eqb Ascii.eqb Bool.eqb].
  rewrite (quantize_zero scale zero_point Hs), Hz. cbn [bind].
  assert (S6 : 0 <= 6) by lra.
  destruct (quantize_nonneg scale zero_point 6 Hs S6) as [(n & Hn & Q6)|Q6];
    rewrite Q6.
  - split.
    + intros q6 H6. rewrite H6. cbn [bind].
      do 2 eexists. split; [reflexivity|].
      assert (Z6 : z <= q6).
      { apply (py_float_mono zero_point (n + zero_point)); [lia | exact Hz | exact H6]. }
      assert (M : inject_Z qmin <= inject_Z qmax) by lra.
      unfold py_max2, py_min2.
      destruct (Qltb (inject_Z qmin) z) eqn:C1;
        destruct (Qltb q6 (inject_Z qmax)) eqn:C2;
        try apply Qltb_true in C1; try apply Qltb_false in C1;
        try apply Qltb_true in C2; try apply Qltb_false in C2;
        repeat split; lra.
    + intros e H6. rewrite H6. cbn [bind].
      split; [exact (py_float_raise _ _ H6) | ].
      now rewrite (py_float_raise _ _ H6).
  - split.
    + intros q6 H6. discriminate H6.
    + intros e H6. cbn [bind]. split; [congruence | reflexivity].
Qed.

Lemma relu6_bounds_ordered_witness :
  (forall q6, quantize (literal (1 # 10)) (-128) 6 = Ok q6 ->
     exists a_min a_max,
       make_qnn_relu tt "RELU6" (literal (1 # 10)) (-128) "int8"
       = Ok (Clip tt a_min a_max) /\
       inject_Z (-128) <= a_min /\ a_min <= a_max /\ a_max <= inject_Z 127) /\
  (forall e, quantize (literal (1 # 10)) (-128) 6 = Raise e ->
     e = OverflowError /\
     make_qnn_relu tt "RELU6" (literal (1 # 10)) (-128) "int8"
     = Raise OverflowError).
Proof.
  apply (relu6_bounds_ordered tt (literal (1 # 10)) (-128) "int8" (-128) 127
           (inject_Z (-128))).
  - vm_compute. reflexivity.
  - vm_compute. reflexivity.
  - vm_compute. reflexivity.
  - split; vm_compute; discriminate.
Defined.

(** C7 as stated fails where the dtype range is not made of floats: with
    int64, scale 1 and the zero point [2^63 - 1], which is in range,
    [quantize(0)] is the float [2^63], above the range, and the clip
    bounds are out of order. *)
Lemma relu6_bounds_int64 :
  get_range_for_dtype_str "int64" = Ok (- 2 ^ 63, 2 ^ 63 - 1)%Z /\
  make_qnn_relu tt "RELU6" (literal 1) (2 ^ 63 - 1) "int64"
  = Ok (Clip tt (inject_Z (2 ^ 63)) (inject_Z (2 ^ 63 - 1))) /\
  inject_Z (2 ^ 63 - 1) < inject_Z (2 ^ 63).
Proof. repeat split; vm_compute; reflexivity. Qed.

(** ** Monotonicity of the output scale *)

Lemma dominated_mul_l (w x y : Q) : dominated x y -> dominated (w * x) (w * y).
Proof.
  unfold dominated. intros [[A B]|[A B]];
    destruct (Qlt_le_dec w 0) as [N|P]; [right|left|left|right]; split; nra.
Qed.

Lemma dominated_mul_r (x y n : Q) : dominated x y -> dominated (x * n) (y * n).
Proof.
  intros D. apply (dominated_mul_l n) in D.
  unfold dominated in *. 
  assert (E1 : x * n == n * x) by ring. assert (E2 : y * n == n * y) by ring.
  destruct D as [[A B]|[A B]]; [left | right]; split; lra.
Qed.

Lemma dominated_scale (s1 s2 a : Q) :
  0 < s1 -> s1 <= s2 -> dominated (s1 * a) (s2 * a).
Proof.
  intros P L. unfold dominated.
  destruct (Qlt_le_dec a 0) as [N|Q]; [right | left]; split; nra.
Qed.

(** Rounding keeps domination, and what is dominated by a finite float
    rounds to a finite float. *)
Lemma dominated_round (x y ry : Q) :
  dominated x y -> round64 y = Fin ry ->
  exists rx, round64 x = Fin rx /\ dominated rx ry.
Proof.
  intros D Hy.
  assert (Z0 : round64 0 = Fin 0) by reflexivity.
  destruct D as [[A B]|[A B]].
  - pose proof (round64_mono 0 x A) as L0.
    pose proof (round64_mono x y B) as L1.
    rewrite Z0 in L0. rewrite Hy in L1.
    destruct (round64 x) as [rx|[|]|]; cbn in L0, L1; try contradiction.
    exists rx. split; [reflexivity|]. left. split; assumption.
  - pose proof (round64_mono x 0 B) as L0.
    pose proof (round64_mono y x A) as L1.
    rewrite Z0 in L0. rewrite Hy in L1.
    destruct (round64 x) as [rx|[|]|]; cbn in L0, L1; try contradiction.
    exists rx. split; [reflexivity|]. right. split; assumption.
Qed.

Lemma fmul_fin_inv (x y : npfloat) (r : Q) :
  fmul x y = Fin r ->
  exists a b, x = Fin a /\ y = Fin b /\ round64 (a * b) = Fin r.
Proof.
  destruct x as [a|s|], y as [b|t|]; cbn [fmul]; intros H;
    try discriminate H.
  - exists a, b. auto.
  - destruct (Qeq_bool a 0); discriminate H.
  - destruct (Qeq_bool b 0); discriminate H.
Qed.

(** One limit [w * x * n] of the list, as [x] shrinks toward zero. *)
Lemma limit_dominated (W : npfloat) (x1 x2 n r2 : Q) :
  dominated x1 x2 ->
  fmul (fmul W (Fin x2)) (Fin n) = Fin r2 ->
  exists r1,
    fmul (fmul W (Fin x1)) (Fin n) = Fin r1 /\ dominated r1 r2.
Proof.
  intros D H.
  apply fmul_fin_inv in H as (m2 & n' & Hm & Hn & R2).
  injection Hn as <-.
  apply fmul_fin_inv in Hm as (w & x' & -> & Hx & M2).
  injection Hx as <-.
  destruct (dominated_round (w * x1) (w * x2) m2
              (dominated_mul_l w x1 x2 D) M2) as (m1 & M1 & Dm).
  destruct (dominated_round (m1 * n) (m2 * n) r2
              (dominated_mul_r m1 m2 n Dm) R2) as (r1 & R1 & Dr).
  exists r1. split; [|exact Dr].
  cbn [fmul]. rewrite M1. cbn [fmul]. exact R1.
Qed.

(** Two limits with the same weight extreme, one on each input extreme,
    lie on either side of zero. *)
Lemma limits_opposite (W : npfloat) (p q n r r' : Q) :
  0 <= p -> q <= 0 ->
  fmul (fmul W (Fin p)) (Fin n) = Fin r ->
  fmul (fmul W (Fin q)) (Fin n) = Fin r' ->
  (0 <= r /\ r' <= 0) \/ (r <= 0 /\ 0 <= r').
Proof.
  intros Hp Hq H H'.
  apply fmul_fin_inv in H as (m & n0 & Hm & Hn & R). injection Hn as <-.
  apply fmul_fin_inv in Hm as (w & x & -> & Hx & M). injection Hx as <-.
  apply fmul_fin_inv in H' as (m' & n0 & Hm' & Hn' & R'). injection Hn' as <-.
  apply fmul_fin_inv in Hm' as (w' & x & Hw & Hx & M').
  injection Hx as <-. injection Hw as <-.
  destruct (Qlt_le_dec w 0) as [Nw|Pw]; destruct (Qlt_le_dec n 0) as [Nn|Pn].
  - assert (m <= 0) by (apply (round64_nonpos (w * p)); [nra | exact M]).
    assert (0 <= m') by (apply (round64_nonneg (w * q)); [nra | exact M']).
    left. split.
    + apply (round64_nonneg (m * n)); [nra | exact R].
    + apply (round64_nonpos (m' * n)); [nra | exact R'].
  - assert (m <= 0) by (apply (round64_nonpos (w * p)); [nra | exact M]).
    assert (0 <= m') by (apply (round64_nonneg (w * q)); [nra | exact M']).
    right. split.
    + apply (round64_nonpos (m * n)); [nra | exact R].
    + apply (round64_nonneg (m' * n)); [nra | exact R'].
  - assert (0 <= m) by (apply (round64_nonneg (w * p)); [nra | exact M]).
    assert (m' <= 0) by (apply (round64_nonpos (w * q)); [nra | exact M']).
    right. split.
    + apply (round64_nonpos (m * n)); [nra | exact R].
    + apply (round64_nonneg (m' * n)); [nra | exact R'].
  - assert (0 <= m) by (apply (round64_nonneg (w * p)); [nra | exact M]).
    assert (m' <= 0) by (apply (round64_nonpos (w * q)); [nra | exact M']).
    left. split.
    + apply (round64_nonneg (m * n)); [nra | exact R].
    + apply (round64_nonpos (m' * n)); [nra | exact R'].
Qed.

(** Python's [max] and [min] on finite floats. *)
Lemma py_max_from_fin (l : list Q) : forall c,
  exists m, py_max_from (Fin c) (map Fin l) = Fin m /\
            In m (c :: l) /\ (forall x, In x (c :: l) -> x <= m).
Proof.
  induction l as [|y l IH]; intros c; cbn [map py_max_from].
  - exists c. split; [reflexivity|]. split; [left; reflexivity|].
    intros x [<-|[]]. apply Qle_refl.
  - cbn [flt]. destruct (Qltb c y) eqn:C.
    + apply Qltb_true in C. destruct (IH y) as (m & E & I & U).
      exists m. split; [exact E|]. split; [right; exact I|].
      intros x [<-|Hx]; [|now apply U].
      apply Qle_trans with y; [lra | apply U; left; reflexivity].
    + apply Qltb_false in C. destruct (IH c) as (m & E & I & U).
      exists m. split; [exact E|]. split.
      * destruct I as [<-|I]; [left; reflexivity | right; right; exact I].
      * intros x [<-|[<-|Hx]].
        -- apply U. left. reflexivity.
        -- apply Qle_trans with c; [exact C | apply U; left; reflexivity].
        -- apply U. right. exact Hx.
Qed.

Lemma py_min_from_fin (l : list Q) : forall c,
  exists m, py_min_from (Fin c) (map Fin l) = Fin m /\
            In m (c :: l) /\ (forall x, In x (c :: l) -> m <= x).
Proof.
  induction l as [|y l IH]; intros c; cbn [map py_min_from].
  - exists c. split; [reflexivity|]. split; [left; reflexivity|].
    intros x [<-|[]]. apply Qle_refl.
  - cbn [flt]. destruct (Qltb y c) eqn:C.
    + apply Qltb_true in C. destruct (IH y) as (m & E & I & U).
      exists m. split; [exact E|]. split; [right; exact I|].
      intros x [<-|Hx]; [|now apply U].
      apply Qle_trans with y; [apply U; left; reflexivity | lra].
    + apply Qltb_false in C. destruct (IH c) as (m & E & I & U).
      exists m. split; [exact E|]. split.
      * destruct I as [<-|I]; [left; reflexivity | right; right; exact I].
      * intros x [<-|[<-|Hx]].
        -- apply U. left. reflexivity.
        -- apply Qle_trans with c; [apply U; left; reflexivity | exact C].
        -- apply U. right. exact Hx.
Qed.

(** The extremes of four limits that shrink toward zero, two of them on
    either side of zero: the span shrinks. *)
Lemma span_dominated (x1 x2 x3 x4 y1 y2 y3 y4 M1 m1 M2 m2 : Q) :
  dominated x1 y1 -> dominated x2 y2 -> dominated x3 y3 -> dominated x4 y4 ->
  (0 <= y1 /\ y4 <= 0) \/ (y1 <= 0 /\ 0 <= y4) ->
  In M1 [x1; x2; x3; x4] -> (forall x, In x [x1; x2; x3; x4] -> x <= M1) ->
  In m1 [x1; x2; x3; x4] -> (forall x, In x [x1; x2; x3; x4] -> m1 <= x) ->
  (forall y, In y [y1; y2; y3; y4] -> y <= M2) ->
  (forall y, In y [y1; y2; y3; y4] -> m2 <= y) ->
  0 <= M1 - m1 /\ M1 - m1 <= M2 - m2.
Proof.
  intros D1 D2 D3 D4 O IM UM Im Um U2 L2.
  assert (A1 : y1 <= M2) by (apply U2; cbn; tauto).
  assert (A2 : y2 <= M2) by (apply U2; cbn; tauto).
  assert (A3 : y3 <= M2) by (apply U2; cbn; tauto).
  assert (A4 : y4 <= M2) by (apply U2; cbn; tauto).
  assert (B1 : m2 <= y1) by (apply L2; cbn; tauto).
  assert (B2 : m2 <= y2) by (apply L2; cbn; tauto).
  assert (B3 : m2 <= y3) by (apply L2; cbn; tauto).
  assert (B4 : m2 <= y4) by (apply L2; cbn; tauto).
  assert (P2 : 0 <= M2) by (destruct O; lra).
  assert (N2 : m2 <= 0) by (destruct O; lra).
  assert (G : m1 <= M1) by (apply UM; exact Im).
  split; [lra|].
  assert (HM : M1 <= M2).
  { unfold dominated in *. cbn [In] in IM.
    destruct IM as [<-|[<-|[<-|[<-|[]]]]];
      [destruct D1 | destruct D2 | destruct D3 | destruct D4]; lra. }
  assert (Hm : m2 <= m1).
  { unfold dominated in *. cbn [In] in Im.
    destruct Im as [<-|[<-|[<-|[<-|[]]]]];
      [destruct D1 | destruct D2 | destruct D3 | destruct D4]; lra. }
  lra.
Qed.

(** What [conv2d_output_limits] computes does not depend on the input
    scale but for the list of limits and its extremes. *)
Lemma conv2d_output_limits_shape
    (weight_shape : list Z) (input_scale : npfloat) (input_zp : Z)
    (weights_scale : scales) (weights_zp : Z)
    (input_dtype weights_dtype output_dtype : string) (is_depthwise : bool)
    (l : conv2d_locals) :
  conv2d_output_limits weight_shape input_scale input_zp weights_scale
    weights_zp input_dtype weights_dtype output_dtype is_depthwise = Ok l ->
  exists imin imax a b W W' n,
    get_range_for_dtype_str input_dtype = Ok (imin, imax) /\
    dtype_minus input_dtype imax input_zp = Ok a /\
    dtype_minus input_dtype imin input_zp = Ok b /\
    get_range_for_dtype_str output_dtype
    = Ok (output_dtype_min l, output_dtype_max l) /\
    forall s,
    exists M m,
      py_max (limits_of s a b W W' n) = Ok M /\
      py_min (limits_of s a b W W' n) = Ok m /\
      conv2d_output_limits weight_shape s input_zp weights_scale
        weights_zp input_dtype weights_dtype output_dtype is_depthwise
      = Ok {| output_limits := limits_of s a b W W' n;
              output_max := M; output_min := m;
              output_dtype_min := output_dtype_min l;
              output_dtype_max := output_dtype_max l |}.
Proof.
  unfold conv2d_output_limits. intros H. bind_inv H.
  apply Ok_inj in H. subst l. cbn [output_dtype_min output_dtype_max].
  exists z, z0, a, a0, (fmul a1 a2), (fmul a3 a4), a8.
  split; [reflexivity|]. split; [exact E0|].
  split; [exact E1|]. split; [reflexivity|].
  intros s. unfold limits_of. cbn [py_max py_min].
  do 2 eexists. split; [reflexivity|]. split; [reflexivity|].
  cbn [bind]. rewrite E0. cbn [bind]. rewrite E1. cbn [bind].
  rewrite E4. cbn [bind]. rewrite E6. cbn [bind].
  rewrite E10. cbn [bind]. reflexivity.
Qed.

Lemma is_finite_inv (x : npfloat) : is_finite x -> exists q, x = Fin q.
Proof. destruct x as [q| |]; cbn; [eauto | contradiction | contradiction]. Qed.

Lemma limit_inner (W X : npfloat) (n r : Q) :
  fmul (fmul W X) (Fin n) = Fin r -> exists x, X = Fin x.
Proof.
  intros H. apply fmul_fin_inv in H as (m & n' & Hm & _ & _).
  apply fmul_fin_inv in Hm as (w & x & _ & Hx & _). eauto.
Qed.

(** An input extreme [input_scale * a] for two positive scales. *)
Lemma input_extreme (s1 s2 : Q) (a : npfloat) (x2 : Q) :
  0 < s1 -> s1 <= s2 -> fmul (Fin s2) a = Fin x2 ->
  exists qa x1,
    a = Fin qa /\ fmul (Fin s1) a = Fin x1 /\ dominated x1 x2 /\
    (0 <= qa -> 0 <= x2) /\ (qa <= 0 -> x2 <= 0).
Proof.
  intros P L H.
  apply fmul_fin_inv in H as (s & qa & Hs & -> & R). injection Hs as <-.
  destruct (dominated_round (s1 * qa) (s2 * qa) x2
              (dominated_scale s1 s2 qa P L) R) as (x1 & R1 & D).
  exists qa, x1. split; [reflexivity|]. split; [exact R1|].
  split; [exact D|]. split; intros S.
  - apply (round64_nonneg (s2 * qa)); [nra | exact R].
  - apply (round64_nonpos (s2 * qa)); [nra | exact R].
Qed.

Lemma dtype_minus_nonneg (dtype : string) (hi zp : Z) (q : Q) :
  (zp <= hi)%Z -> dtype_minus dtype hi zp = Ok (Fin q) -> 0 <= q.
Proof.
  intros L. unfold dtype_minus.
  destruct (Numpy.from_finfo dtype); intros H; bind_inv H.
  - apply Ok_inj in H. cbn [fsub] in H.
    pose proof (py_float_mono zp hi a0 a L E0 E).
    apply (round64_nonneg (a - a0)); [lra | exact H].
  - apply Ok_inj in H. injection H as <-.
    apply (py_float_nonneg (hi - zp)); [lia | exact E].
Qed.

Lemma dtype_minus_nonpos (dtype : string) (lo zp : Z) (q : Q) :
  (lo <= zp)%Z -> dtype_minus dtype lo zp = Ok (Fin q) -> q <= 0.
Proof.
  intros L. unfold dtype_minus.
  destruct (Numpy.from_finfo dtype); intros H; bind_inv H.
  - apply Ok_inj in H. cbn [fsub] in H.
    pose proof (py_float_mono lo zp a a0 L E E0).
    apply (round64_nonpos (a - a0)); [lra | exact H].
  - apply Ok_inj in H. injection H as <-.
    apply (py_float_nonpos (lo - zp)); [lia | exact E].
Qed.

(** The scale from the span of the limits, as the span shrinks. *)
Lemma scale_shrinks (output_dtype : string) (lo hi : Z) (width : npfloat)
    (M1 m1 M2 m2 o2 : Q) :
  dtype_width output_dtype lo hi = Ok width -> (lo < hi)%Z ->
  0 <= M1 - m1 -> M1 - m1 <= M2 - m2 ->
  np_div (fsub (Fin M2) (Fin m2)) width = Fin o2 ->
  exists o1,
    np_div (fsub (Fin M1) (Fin m1)) width = Fin o1 /\ 0 <= o1 /\ o1 <= o2.
Proof.
  intros Hw Hlt P L H2. cbn [fsub] in *.
  assert (D : dominated (M1 - m1) (M2 - m2)) by (left; split; assumption).
  destruct (round64 (M2 - m2)) as [d2|s|] eqn:R2.
  2:{ destruct width; cbn in H2; discriminate H2. }
  2:{ destruct width; cbn in H2; discriminate H2. }
  destruct (dominated_round _ _ _ D R2) as (d1 & R1 & Dd).
  assert (P2 : 0 <= d2) by (apply (round64_nonneg (M2 - m2)); [lra | exact R2]).
  assert (B : 0 <= d1 /\ d1 <= d2) by (destruct Dd; lra).
  rewrite R1. unfold dtype_width in Hw.
  destruct (Numpy.from_finfo output_dtype).
  - apply Ok_inj in Hw. subst width. cbn [np_div] in *.
    injection H2 as <-. exists 0. split; [reflexivity | lra].
  - bind_inv Hw. apply Ok_inj in Hw. subst width.
    assert (Pw : 0 <= a) by (apply (py_float_nonneg (hi - lo)); [lia | exact E]).
    cbn [np_div] in *.
    destruct (Qeq_bool a 0) eqn:Z.
    { destruct (Qeq_bool d2 0); discriminate H2. }
    apply Qeq_bool_false in Z.
    assert (Pw' : 0 < a) by lra.
    assert (Dq : dominated (d1 / a) (d2 / a)).
    { left. split.
      - apply Qle_shift_div_l; lra.
      - apply Qmult_le_compat_r; [lra|].
        apply Qlt_le_weak, Qinv_lt_0_compat, Pw'. }
    destruct (dominated_round _ _ _ Dq H2) as (o1 & O1 & Do).
    assert (Po : 0 <= o2).
    { apply (round64_nonneg (d2 / a)); [|exact H2].
      apply Qle_shift_div_l; lra. }
    exists o1. split; [exact O1|]. destruct Do; lra.
Qed.

(** C4, as the code has it.  For two positive input scales [s1 <= s2], an
    input zero point inside the range of the input dtype, and all other
    parameters fixed: when with [s2] the four limits and the output scale
    are finite (nothing overflows), then with [s1] they are finite too and
    the output scale computed with [s1] is not above the one computed with
    [s2]. *)
Theorem output_scale_monotone
    (weight_shape : list Z) (s1 s2 : Q) (input_zp : Z)
    (weights_scale : scales) (weights_zp : Z)
    (input_dtype weights_dtype output_dtype : string) (is_depthwise : bool)
    (imin imax : Z) (l2 : conv2d_locals) (o2 : Q) :
  0 < s1 -> s1 <= s2 ->
  get_range_for_dtype_str input_dtype = Ok (imin, imax) ->
  (imin <= input_zp <= imax)%Z ->
  conv2d_output_limits weight_shape (Fin s2) input_zp weights_scale
    weights_zp input_dtype weights_dtype output_dtype is_depthwise = Ok l2 ->
  Forall is_finite (output_limits l2) ->
  output_scale_of output_dtype l2 = Ok (Fin o2) ->
  exists l1 o1,
    conv2d_output_limits weight_shape (Fin s1) input_zp weights_scale
      weights_zp input_dtype weights_dtype output_dtype is_depthwise = Ok l1 /\
    Forall is_finite (output_limits l1) /\
    output_scale_of output_dtype l1 = Ok (Fin o1) /\
    0 <= o1 /\ o1 <= o2.
Proof.
  intros P L Hr Hz H2 F O2.
  destruct (conv2d_output_limits_shape _ _ _ _ _ _ _ _ _ _ H2)
    as (imin' & imax' & a & b & W & W' & n & Hr' & Ha & Hb & Ho & Hs).
  rewrite Hr in Hr'. apply Ok_pair_inj in Hr' as [<- <-].
  assert (Hlt : (output_dtype_min l2 < output_dtype_max l2)%Z).
  { pose proof (range_lookup_proper _ _ _ Ho). lia. }
  destruct (Hs (Fin s2)) as (M2 & m2 & HM2 & Hm2 & C2).
  rewrite H2 in C2. apply Ok_inj in C2.
  destruct (Hs (Fin s1)) as (M1 & m1 & HM1 & Hm1 & C1).
  rewrite C2 in F, O2. cbn [output_limits] in F.
  unfold output_scale_of in O2.
  cbn [output_max output_min output_dtype_min output_dtype_max] in O2.
  clear C2 H2 Hs.
  unfold limits_of in *.
  apply Forall_cons_iff in F as [F1 F]. apply Forall_cons_iff in F as [F2 F].
  apply Forall_cons_iff in F as [F3 F]. apply Forall_cons_iff in F as [F4 _].
  apply is_finite_inv in F1 as (y1 & Y1), F2 as (y2 & Y2),
    F3 as (y3 & Y3), F4 as (y4 & Y4).
  destruct (limit_inner _ _ _ _ Y1) as (pa & Pa).
  destruct (limit_inner _ _ _ _ Y3) as (pb & Pb).
  destruct (input_extreme s1 s2 a pa P L Pa)
    as (qa & xa & -> & Xa & Da & Sa & _).
  destruct (input_extreme s1 s2 b pb P L Pb)
    as (qb & xb & -> & Xb & Db & _ & Sb).
  assert (Qa : 0 <= qa) by (apply (dtype_minus_nonneg _ _ _ _ (proj2 Hz) Ha)).
  assert (Qb : qb <= 0) by (apply (dtype_minus_nonpos _ _ _ _ (proj1 Hz) Hb)).
  rewrite Pa, Pb in *. rewrite Xa, Xb in *.
  destruct (limit_dominated W xa pa n y1 Da Y1) as (x1 & X1 & D1).
  destruct (limit_dominated W' xa pa n y2 Da Y2) as (x2 & X2 & D2).
  destruct (limit_dominated W' xb pb n y3 Db Y3) as (x3 & X3 & D3).
  destruct (limit_dominated W xb pb n y4 Db Y4) as (x4 & X4 & D4).
  pose proof (limits_opposite W pa pb n y1 y4 (Sa Qa) (Sb Qb) Y1 Y4) as Op.
  rewrite Y1, Y2, Y3, Y4 in *. rewrite X1, X2, X3, X4 in *.
  cbn [py_max py_min] in HM1, Hm1, HM2, Hm2.
  destruct (py_max_from_fin [x2; x3; x4] x1) as (M1q & EM1 & IM1 & UM1).
  destruct (py_min_from_fin [x2; x3; x4] x1) as (m1q & Em1 & Im1 & Um1).
  destruct (py_max_from_fin [y2; y3; y4] y1) as (M2q & EM2 & _ & UM2).
  destruct (py_min_from_fin [y2; y3; y4] y1) as (m2q & Em2 & _ & Um2).
  cbn [map] in EM1, Em1, EM2, Em2.
  rewrite EM1 in HM1. rewrite Em1 in Hm1. rewrite EM2 in HM2.
  rewrite Em2 in Hm2.
  apply Ok_inj in HM1, Hm1, HM2, Hm2. subst M1 m1 M2 m2.
  destruct (span_dominated x1 x2 x3 x4 y1 y2 y3 y4 M1q m1q M2q m2q
              D1 D2 D3 D4 Op IM1 UM1 Im1 Um1 UM2 Um2) as [Sp0 Sp].
  destruct (dtype_width output_dtype (output_dtype_min l2)
              (output_dtype_max l2)) as [width|e] eqn:Wd;
    cbn [bind] in O2; [|discriminate O2].
  apply Ok_inj in O2.
  destruct (scale_shrinks output_dtype _ _ width M1q m1q M2q m2q o2
              Wd Hlt Sp0 Sp O2) as (o1 & O1 & Po & Lo).
  eexists. exists o1. split; [exact C1|].
  cbn [output_limits]. split.
  - repeat constructor.
  - unfold output_scale_of.
    cbn [output_max output_min output_dtype_min output_dtype_max].
    rewrite Wd. cbn [bind]. rewrite O1. auto.
Qed.

Lemma output_scale_monotone_witness :
  exists l1 o1,
    conv2d_output_limits [1; 3; 3; 4]%Z (Fin (1 # 2)) 0
      (PerChannel [literal (1 # 10)]) 0 "int8" "int8" "int8" false = Ok l1 /\
    Forall is_finite (output_limits l1) /\
    output_scale_of "int8" l1 = Ok (Fin o1) /\
    0 <= o1 /\ o1 <= 8106479329266893 # 17592186044416.
Proof.
  eapply (output_scale_monotone [1; 3; 3; 4]%Z (1 # 2) 1 0
            (PerChannel [literal (1 # 10)]) 0 "int8" "int8" "int8" false
            (-128) 127 _ (8106479329266893 # 17592186044416)).
  - reflexivity.
  - unfold Qle. simpl. lia.
  - reflexivity.
  - lia.
  - vm_compute. reflexivity.
  - simpl. repeat constructor.
  - vm_compute. reflexivity.
Defined.

(** C4 as stated fails in two ways.  With both zero points outside their
    ranges (255 and 300 for int8) all four limits have the same sign and
    the rounding of their difference is not monotone: the scale returned
    for 2.9 is above the one returned for 2.900000000000001.  With zero
    points in range, the input scale 1e308 overflows a limit's factor,
    [0 * inf] is NaN and so is the output scale, which compares with
    nothing, where the input scale 1.0 gives 918. *)
Lemma output_scale_not_monotone :
  (flt (Fin 0) (literal (29 # 10)) = true /\
   flt (literal (29 # 10))
     (literal (2900000000000001 # 1000000000000000)) = true /\
   get_conv2d_qnn_params [1; 3; 3; 1]%Z (literal (29 # 10)) 255
     (Scalar (literal (1 # 2))) 300 "int8" "int8" "int8" false
   = Ok (Fin (3988918234408551 # 549755813888), (-167)%Z) /\
   get_conv2d_qnn_params [1; 3; 3; 1]%Z
     (literal (2900000000000001 # 1000000000000000)) 255
     (Scalar (literal (1 # 2))) 300 "int8" "int8" "int8" false
   = Ok (Fin (7977836468817101 # 1099511627776), (-167)%Z) /\
   7977836468817101 # 1099511627776 < 3988918234408551 # 549755813888) /\
  (flt (literal 1) (literal (10 ^ 308)) = true /\
   get_conv2d_qnn_params [1; 3; 3; 4]%Z (literal 1) 0
     (PerChannel [literal (1 # 10)]) 127 "int8" "int8" "int8" false
   = Ok (Fin 918, (-1)%Z) /\
   (exists l,
       conv2d_output_limits [1; 3; 3; 4]%Z (literal (10 ^ 308)) 0
         (PerChannel [literal (1 # 10)]) 127 "int8" "int8" "int8" false
       = Ok l /\
       output_scale_of "int8" l = Ok NaN) /\
   ~ fle (Fin 918) NaN).
Proof.
  split.
  - split; [vm_compute; reflexivity|]. split; [vm_compute; reflexivity|].
    split; [vm_compute; reflexivity|]. split; [vm_compute; reflexivity|].
    vm_compute. reflexivity.
  - split; [vm_compute; reflexivity|]. split; [vm_compute; reflexivity|].
    split.
    + exists {| output_limits := [NaN; Inf true; Inf false; NaN];
                output_max := NaN; output_min := NaN;
                output_dtype_min := -128; output_dtype_max := 127 |}.
      split; vm_compute; reflexivity.
    + intros H. exact H.
Qed.

(** ** The partitioning checks *)

Lemma external_attrs_any (mod_ : Partitioning.ir_module) :
  existsb Partitioning.truthy (Partitioning.external_attrs mod_) = true <->
  exists f, In f mod_ /\ Partitioning.truthy (Partitioning.attrs f) = true.
Proof.
  unfold Partitioning.external_attrs. rewrite existsb_exists. split.
  - intros (a & Ha & T). apply filter_In in Ha. destruct Ha as [Ha _].
    apply in_map_iff in Ha. destruct Ha as (f & <- & Hf). now exists f.
  - intros (f & Hf & T). exists (Partitioning.attrs f). split; [|exact T].
    apply filter_In. split; [|exact T]. now apply in_map.
Qed.

(** [assert_no_external_function] passes exactly on a module none of whose
    functions has a non-empty [attrs]. *)
Theorem no_external_function_passes (mod_ : Partitioning.ir_module) :
  Partitioning.assert_no_external_function mod_ = Partitioning.Passed <->
  forall f, In f mod_ ->
    Partitioning.attrs f = None \/ Partitioning.attrs f = Some [].
Proof.
  unfold Partitioning.assert_no_external_function.
  destruct (existsb Partitioning.truthy (Partitioning.external_attrs mod_))
    eqn:X; cbn [negb].
  - apply external_attrs_any in X. destruct X as (f & Hf & T).
    split; [discriminate|]. intros H. destruct (H f Hf) as [E|E];
      rewrite E in T; discriminate T.
  - split; [|reflexivity]. intros _ f Hf.
    destruct (Partitioning.attrs f) as [[|kv d]|] eqn:A; auto.
    assert (Y : existsb Partitioning.truthy (Partitioning.external_attrs mod_)
                = true).
    { apply external_attrs_any. exists f. split; [exact Hf|].
      now rewrite A. }
    rewrite Y in X. discriminate X.
Qed.

(** [assert_partitioned_function] passes exactly when some function of the
    partitioned module carries the attribute [Compiler = "cmsis-nn"] and
    the two modules have the same number of calls: its first assertion
    never decides alone. *)
Theorem partitioned_function_passes
    (count_num_calls : Partitioning.ir_module -> nat)
    (orig_mod cmsisnn_mod : Partitioning.ir_module) :
  Partitioning.assert_partitioned_function count_num_calls orig_mod
    cmsisnn_mod = Partitioning.Passed <->
  (exists f d,
      In f cmsisnn_mod /\ Partitioning.attrs f = Some d /\
      In ("Compiler"%string, Partitioning.AStr "cmsis-nn") d) /\
  count_num_calls orig_mod = count_num_calls cmsisnn_mod.
Proof.
  unfold Partitioning.assert_partitioned_function.
  set (compilers := flat_map _ _).
  assert (C : existsb (fun b : bool => b) compilers = true <->
              exists f d,
                In f cmsisnn_mod /\ Partitioning.attrs f = Some d /\
                In ("Compiler"%string, Partitioning.AStr "cmsis-nn") d).
  { unfold compilers. rewrite existsb_exists. split.
    - intros (b & Hb & ->). apply in_flat_map in Hb.
      destruct Hb as (a & Ha & Hb). apply in_map_iff in Hb.
      destruct Hb as ([k v] & Hkv & Hin).
      unfold Partitioning.external_attrs in Ha. apply filter_In in Ha.
      destruct Ha as [Ha _]. apply in_map_iff in Ha.
      destruct Ha as (f & <- & Hf).
      destruct (Partitioning.attrs f) as [d|] eqn:A; [|destruct Hin].
      exists f, d. split; [exact Hf|]. split; [exact A|].
      unfold Partitioning.is_cmsisnn in Hkv. cbn [fst snd] in Hkv.
      apply andb_true_iff in Hkv. destruct Hkv as [K V].
      apply String.eqb_eq in K. destruct v as [t|]; [|discriminate V].
      apply String.eqb_eq in V. subst. exact Hin.
    - intros (f & d & Hf & A & Hin). exists true. split; [|reflexivity].
      apply in_flat_map. exists (Some d). split.
      + unfold Partitioning.external_attrs. apply filter_In. split.
        * rewrite <- A. now apply in_map.
        * destruct d; [destruct Hin | reflexivity].
      + apply in_map_iff.
        exists ("Compiler"%string, Partitioning.AStr "cmsis-nn").
        split; [reflexivity | exact Hin]. }
  destruct (existsb Partitioning.truthy (Partitioning.external_attrs cmsisnn_mod))
    eqn:X; cbn [negb].
  - destruct (existsb (fun b : bool => b) compilers) eqn:Y; cbn [negb].
    + destruct (Nat.eqb_spec (count_num_calls orig_mod)
                  (count_num_calls cmsisnn_mod)) as [E|N]; cbn [negb].
      * split; [intros _|reflexivity]. split; [now apply C | exact E].
      * split; [discriminate | intros [_ E]; contradiction].
    + split; [discriminate|]. intros [H _]. apply C in H. discriminate H.
  - split; [discriminate|]. intros [(f & d & Hf & A & Hin) _].
    assert (Z : existsb Partitioning.truthy
                  (Partitioning.external_attrs cmsisnn_mod) = true).
    { apply external_attrs_any. exists f. split; [exact Hf|].
      rewrite A. destruct d; [destruct Hin | reflexivity]. }
    rewrite Z in X. discriminate X.
Qed.

(** A module cannot pass both checks: one that passes
    [assert_partitioned_function] fails [assert_no_external_function]. *)
Theorem checks_exclusive
    (count_num_calls : Partitioning.ir_module -> nat)
    (orig_mod cmsisnn_mod : Partitioning.ir_module) :
  Partitioning.assert_partitioned_function count_num_calls orig_mod
    cmsisnn_mod = Partitioning.Passed ->
  Partitioning.assert_no_external_function cmsisnn_mod
  = Partitioning.AssertionError
      "No function should have an external attribute.".
Proof.
  unfold Partitioning.assert_partitioned_function,
    Partitioning.assert_no_external_function.
  destruct (existsb Partitioning.truthy (Partitioning.external_attrs cmsisnn_mod));
    cbn [negb]; [reflexivity | discriminate].
Qed.

Lemma checks_exclusive_witness :
  Partitioning.assert_no_external_function
    [ {| Partitioning.attrs := None |};
      {| Partitioning.attrs :=
           Some [("Compiler"%string, Partitioning.AStr "cmsis-nn")] |} ]
  = Partitioning.AssertionError
      "No function should have an external attribute.".
Proof.
  apply (checks_exclusive (fun m => List.length m)
           [ {| Partitioning.attrs := None |};
             {| Partitioning.attrs := Some [] |} ]).
  reflexivity.
Defined.

